(** * melonJS [Ellipse] (src/geometries/ellipse.js): a shallow embedding

    The class [Ellipse] is embedded once, generically over the arithmetic
    of JavaScript numbers (class [JSNumber]), and read at two instances:

    - [Exact.t]: the values of a JavaScript number (NaN, the two
      infinities, the two zeros, the finite values) with exact rational
      arithmetic on the finite ones: no rounding, no overflow, no
      underflow.  The general (for all inputs) statements that need
      arithmetic are proved here.
    - [float]: IEEE-754 binary64, the kernel's primitive floats, which is
      what a JavaScript engine computes.  The concrete scenarios are
      evaluated here as well, and the two arithmetics are compared on a
      sample of values ([exact_agrees_with_binary64_on_samples]).

    The methods are written in state-passing style: a method takes [this]
    and the store of [Bounds] objects and returns both.  The collaborators
    [Vector2d], [Bounds] and the object pool are not part of the sources of
    this unit; they are modelled from the specification and marked so. *)

From Stdlib Require Import QArith Qcanon PrimFloat Bool String List.
From stdpp Require Import base decidable option numbers gmap.

Set Default Proof Using "Type".

(* ================================================================== *)
(** ** JavaScript numbers *)
(* ================================================================== *)

(** The operations on numbers that ellipse.js uses: the literals [0]
  (a fresh [Vector2d]), [1.0], [2] and [NaN]; binary [+ - * /], unary
  [-], [Math.max] and [<=]. *)
Class JSNumber (N : Type) := {
  js_zero : N;
  js_one : N;
  js_two : N;
  js_NaN : N;
  js_add : N -> N -> N;
  js_sub : N -> N -> N;
  js_mul : N -> N -> N;
  js_div : N -> N -> N;
  js_neg : N -> N;
  Math_max : N -> N -> N;
  js_le : N -> N -> bool
}.

Declare Scope js_scope.
Delimit Scope js_scope with js.
Infix "+" := js_add : js_scope.
Infix "-" := js_sub : js_scope.
Infix "*" := js_mul : js_scope.
Infix "/" := js_div : js_scope.
Notation "- a" := (js_neg a) : js_scope.
Infix "<=?" := js_le : js_scope.

(** *** Exact arithmetic with the special values *)

Module Exact.

(** [Fin 0] is [+0]; [NegZero] is [-0]; [Inf true] is [-Infinity]. *)
Inductive t : Type :=
  | NaN
  | Inf (negative : bool)
  | NegZero
  | Fin (q : Qc).

(** The rational value of a finite number (0 on the others). *)
Definition qval (a : t) : Qc :=
  match a with Fin q => q | _ => 0%Qc end.

(** Neither NaN nor an infinity. *)
Definition finite (a : t) : bool :=
  match a with Fin _ | NegZero => true | _ => false end.

(** The sign bit. *)
Definition signb (a : t) : bool :=
  match a with
  | NaN => false
  | Inf s => s
  | NegZero => true
  | Fin q => bool_decide (q < 0)%Qc
  end.

(** [+0] or [-0]. *)
Definition is_zero (a : t) : bool :=
  match a with
  | NegZero => true
  | Fin q => bool_decide (q = 0%Qc)
  | _ => false
  end.

(** The zero of sign [s]. *)
Definition mkzero (s : bool) : t := if s then NegZero else Fin 0%Qc.

(** The finite number of value [q]; [s] is the sign of the result when
    [q] is zero. *)
Definition mkfin (q : Qc) (s : bool) : t :=
  if bool_decide (q = 0%Qc) then mkzero s else Fin q.

(** [a + b]: an exact zero sum is [-0] only for [(-0) + (-0)]. *)
Definition add (a b : t) : t :=
  match a, b with
  | NaN, _ | _, NaN => NaN
  | Inf s, Inf s' => if Bool.eqb s s' then Inf s else NaN
  | Inf s, _ | _, Inf s => Inf s
  | _, _ => mkfin (qval a + qval b) (signb a && signb b)
  end.

(** [- a]. *)
Definition neg (a : t) : t :=
  match a with
  | NaN => NaN
  | Inf s => Inf (negb s)
  | NegZero => Fin 0%Qc
  | Fin q => mkfin (- q) true
  end.

(** [a - b] is [a + (-b)] in IEEE-754 arithmetic. *)
Definition sub (a b : t) : t := add a (neg b).

(** [a * b]: the signs combine; infinity times zero is NaN. *)
Definition mul (a b : t) : t :=
  let s := xorb (signb a) (signb b) in
  match a, b with
  | NaN, _ | _, NaN => NaN
  | Inf _, c | c, Inf _ => if is_zero c then NaN else Inf s
  | _, _ => mkfin (qval a * qval b) s
  end.

(** [a / b]: a finite number other than zero over zero is an infinity,
    zero over zero and infinity over infinity are NaN. *)
Definition div (a b : t) : t :=
  let s := xorb (signb a) (signb b) in
  match a, b with
  | NaN, _ | _, NaN => NaN
  | Inf _, Inf _ => NaN
  | Inf _, _ => Inf s
  | _, Inf _ => mkzero s
  | _, _ =>
      if is_zero b then (if is_zero a then NaN else Inf s)
      else mkfin (qval a / qval b) s
  end.

(** [Math.max(a, b)]: NaN when either is NaN; [+0] is larger than [-0]. *)
Definition max (a b : t) : t :=
  match a, b with
  | NaN, _ | _, NaN => NaN
  | Inf false, _ | _, Inf false => Inf false
  | Inf true, c | c, Inf true => c
  | _, _ =>
      if bool_decide (qval a < qval b)%Qc then b
      else if bool_decide (qval b < qval a)%Qc then a
      else if signb a then b else a
  end.

(** [a <= b]: false when either is NaN; the two zeros are equal. *)
Definition le (a b : t) : bool :=
  match a, b with
  | NaN, _ | _, NaN => false
  | Inf true, _ | _, Inf false => true
  | Inf false, _ | _, Inf true => false
  | _, _ => bool_decide (qval a <= qval b)%Qc
  end.

(** Numeric literals. *)
Definition of_Z (z : Z) : t := Fin (Qc_of_Z z).
Definition of_Q (q : Q) : t := Fin (Q2Qc q).

(** The same number, the two zeros counting as one (and NaN as itself). *)
Definition same (a b : t) : Prop :=
  a = b \/ (is_zero a = true /\ is_zero b = true).

(** The larger of two rationals, as [max] picks it. *)
Definition Qcmax (p q : Qc) : Qc := if bool_decide (p < q)%Qc then q else p.

End Exact.

#[export] Instance exact_number : JSNumber Exact.t := {|
  js_zero := Exact.of_Z 0;
  js_one := Exact.of_Z 1;
  js_two := Exact.of_Z 2;
  js_NaN := Exact.NaN;
  js_add := Exact.add;
  js_sub := Exact.sub;
  js_mul := Exact.mul;
  js_div := Exact.div;
  js_neg := Exact.neg;
  Math_max := Exact.max;
  js_le := Exact.le
|}.

(** *** IEEE-754 binary64 *)

Module Binary64.

(** [Math.max] on doubles. *)
Definition max (a b : float) : float :=
  if (PrimFloat.is_nan a || PrimFloat.is_nan b)%bool then PrimFloat.nan
  else if PrimFloat.ltb a b then b
  else if PrimFloat.ltb b a then a
  else if PrimFloat.get_sign a then b else a.

End Binary64.

#[export] Instance float_number : JSNumber float := {|
  js_zero := PrimFloat.zero;
  js_one := PrimFloat.one;
  js_two := PrimFloat.two;
  js_NaN := PrimFloat.nan;
  js_add := PrimFloat.add;
  js_sub := PrimFloat.sub;
  js_mul := PrimFloat.mul;
  js_div := PrimFloat.div;
  js_neg := PrimFloat.opp;
  Math_max := Binary64.max;
  js_le := PrimFloat.leb
|}.

(** *** The two arithmetics side by side *)

(** The double of an integer (exact while it has at most 53 bits). *)
Fixpoint float_of_positive (p : positive) : float :=
  match p with
  | xH => PrimFloat.one
  | xO p => PrimFloat.mul PrimFloat.two (float_of_positive p)
  | xI p =>
      PrimFloat.add (PrimFloat.mul PrimFloat.two (float_of_positive p))
        PrimFloat.one
  end.

(** The double of a signed integer. *)
Definition float_of_Z (z : Z) : float :=
  match z with
  | Z0 => PrimFloat.zero
  | Zpos p => float_of_positive p
  | Zneg p => PrimFloat.opp (float_of_positive p)
  end.

(** The double an exact number stands for, where a double holds it. *)
Definition to_float (a : Exact.t) : float :=
  match a with
  | Exact.NaN => PrimFloat.nan
  | Exact.Inf s => if s then PrimFloat.neg_infinity else PrimFloat.infinity
  | Exact.NegZero => PrimFloat.neg_zero
  | Exact.Fin q =>
      PrimFloat.div (float_of_Z (Qnum q)) (float_of_positive (Qden q))
  end.

(** The special values and a few dyadic numbers. *)
Definition samples : list Exact.t :=
  Exact.NaN :: Exact.Inf false :: Exact.Inf true :: Exact.NegZero ::
  Exact.of_Z 0 :: Exact.of_Z 1 :: Exact.of_Z (-1) :: Exact.of_Z 2 ::
  Exact.of_Z (-2) :: Exact.of_Q (1 # 2) :: Exact.of_Q (-1 # 2) ::
  Exact.of_Z 4 :: Exact.of_Q (-1 # 4) :: Exact.of_Z 8 :: nil.

(** [f] on exact numbers and [g] on doubles give the same double, bit for
    bit, on every pair of samples. *)
Definition agree2 (f : Exact.t -> Exact.t -> Exact.t)
    (g : float -> float -> float) : bool :=
  forallb (fun a => forallb (fun b =>
    PrimFloat.Leibniz.eqb (to_float (f a b)) (g (to_float a) (to_float b)))
    samples) samples.

(* ================================================================== *)
(** ** The collaborators and the class [Ellipse] *)
(* ================================================================== *)

(** Objects of type [Bounds] live in a store and are named by a location:
    [getBounds] hands out the same mutable instance on every call. *)
Definition loc : Set := positive.

Section Ellipse.

Context {N : Type} `{JSNumber N}.
Local Open Scope js_scope.

(** *** [Vector2d] *)

(** Modelled from the spec: the 2D vector value type [Vector2d]
    (math/vector2.js, not among the sources): a pair of coordinates [x],
    [y] (here [vx], [vy], as [x] and [y] name the arguments of every
    method).  The vectors an [Ellipse] owns are created by its constructor
    and never handed to another object, so they are held by value. *)
Record Vector2d : Type := mkVector2d { vx : N; vy : N }.

(** Modelled from the spec: [new Vector2d()], "constructed as a zero
    vector". *)
Definition Vector2d_new : Vector2d := mkVector2d js_zero js_zero.

(** Modelled from the spec: [v.set(x, y)]. *)
Definition Vector2d_set (v : Vector2d) (x y : N) : Vector2d :=
  mkVector2d x y.

(** Modelled from the spec: [v.scaleV(w)], the component-wise product. *)
Definition Vector2d_scaleV (v w : Vector2d) : Vector2d :=
  mkVector2d (vx v * vx w) (vy v * vy w).

(** Modelled from the spec: [v.rotate(angle, pivot?)], the rotation of [v]
    counter-clockwise by [angle] radians about [pivot] (the origin when
    omitted).  Its trigonometry is the vector type's business: the
    operation is a parameter of the model. *)
Variable Vector2d_rotate : Vector2d -> N -> option Vector2d -> Vector2d.

(** *** [Bounds] *)

(** Modelled from the spec: the axis-aligned box [Bounds] (not among the
    sources), the box [[minX, minY] .. [maxX, maxY]]. *)
Record Bounds : Type := mkBounds { bmin : Vector2d; bmax : Vector2d }.

(** Modelled from the spec: [b.setMinMax(minX, minY, maxX, maxY)]. *)
Definition Bounds_setMinMax (b : Bounds) (minX minY maxX maxY : N) : Bounds :=
  mkBounds (mkVector2d minX minY) (mkVector2d maxX maxY).

(** Modelled from the spec: [b.translate(dx, dy)] moves both corners. *)
Definition Bounds_translate (b : Bounds) (dx dy : N) : Bounds :=
  mkBounds (mkVector2d (vx (bmin b) + dx) (vy (bmin b) + dy))
           (mkVector2d (vx (bmax b) + dx) (vy (bmax b) + dy)).

(** Modelled from the spec: the top-left corner of the box. *)
Definition Bounds_topLeft (b : Bounds) : Vector2d := bmin b.

(** Modelled from the spec: the size (width, height) of the box. *)
Definition Bounds_size (b : Bounds) : Vector2d :=
  mkVector2d (vx (bmax b) - vx (bmin b)) (vy (bmax b) - vy (bmin b)).

(** Modelled from the spec: [b.shift(point)] "recenters bounds' position to
    the given point, preserving size". *)
Definition Bounds_shift (b : Bounds) (p : Vector2d) : Bounds :=
  mkBounds p (mkVector2d (vx p + vx (Bounds_size b))
                         (vy p + vy (Bounds_size b))).

(** *** The object pool *)

(** The state in which the pool hands an instance out ("ready-to-use");
    [setShape] overwrites it at once. *)
Variable pooled : Bounds.

(** Modelled from the spec: [pool.pull("Bounds")] returns an instance that
    no one else holds: a location that is not in the store. *)
Definition pool_pull (σ : gmap loc Bounds) : loc * gmap loc Bounds :=
  let l := fresh (dom σ) in (l, <[l := pooled]> σ).

(** A method call [l.m(...)] on the [Bounds] object at [l], [m] being
    given by its effect on the object. *)
Definition call_Bounds (l : loc) (m : Bounds -> Bounds)
    (σ : gmap loc Bounds) : gmap loc Bounds :=
  alter m l σ.

(** *** [Ellipse] *)

(** The fields of an [Ellipse] object, ellipse.js lines 15 to 70;
    [_bounds] is [None] while it is [undefined]. *)
Record Ellipse : Type := mkEllipse {
  pos : Vector2d;
  _bounds : option loc;
  radius : N;
  radiusV : Vector2d;
  radiusSq : Vector2d;
  ratio : Vector2d;
  shapeType : string
}.

(** Assignments to the fields of [this]. *)
Definition set_pos (this : Ellipse) (v : Vector2d) : Ellipse :=
  mkEllipse v (_bounds this) (radius this) (radiusV this) (radiusSq this)
    (ratio this) (shapeType this).
Definition set__bounds (this : Ellipse) (b : option loc) : Ellipse :=
  mkEllipse (pos this) b (radius this) (radiusV this) (radiusSq this)
    (ratio this) (shapeType this).
Definition set_radius (this : Ellipse) (r : N) : Ellipse :=
  mkEllipse (pos this) (_bounds this) r (radiusV this) (radiusSq this)
    (ratio this) (shapeType this).
Definition set_radiusV (this : Ellipse) (v : Vector2d) : Ellipse :=
  mkEllipse (pos this) (_bounds this) (radius this) v (radiusSq this)
    (ratio this) (shapeType this).
Definition set_radiusSq (this : Ellipse) (v : Vector2d) : Ellipse :=
  mkEllipse (pos this) (_bounds this) (radius this) (radiusV this) v
    (ratio this) (shapeType this).
Definition set_ratio (this : Ellipse) (v : Vector2d) : Ellipse :=
  mkEllipse (pos this) (_bounds this) (radius this) (radiusV this)
    (radiusSq this) v (shapeType this).

(** The arguments of [translate] and [contains]: two numbers, or one
    vector-like value ([arguments.length === 2], or else). *)
Inductive Arguments : Type :=
  | XY (x y : N)
  | Vec (v : Vector2d).

(** A method works on [this] and on the store of [Bounds] objects. *)
Definition World : Type := Ellipse * gmap loc Bounds.

(** [getBounds()], lines 253 to 258. *)
Definition getBounds (w : World) : loc * World :=
  let '(this, σ) := w in
  match _bounds this with
  | None =>
      let '(l, σ) := pool_pull σ in
      (l, (set__bounds this (Some l), σ))
  | Some l => (l, (this, σ))
  end.

(** [setShape(x, y, w, h)], lines 88 to 105. *)
Definition setShape (wd : World) (x y w h : N) : World :=
  let '(this, σ) := wd in
  let hW := w / js_two in
  let hH := h / js_two in
  let this := set_pos this (Vector2d_set (pos this) x y) in
  let this := set_radius this (Math_max hW hH) in
  let this := set_ratio this
    (Vector2d_set (ratio this) (hW / radius this) (hH / radius this)) in
  let this := set_radiusV this
    (Vector2d_scaleV (Vector2d_set (radiusV this) (radius this) (radius this))
       (ratio this)) in
  let r := radius this * radius this in
  let this := set_radiusSq this
    (Vector2d_scaleV (Vector2d_set (radiusSq this) r r) (ratio this)) in
  let '(b, (this, σ)) := getBounds (this, σ) in
  let σ := call_Bounds b (fun o => Bounds_setMinMax o x y (x + w) (x + h)) σ in
  let '(b, (this, σ)) := getBounds (this, σ) in
  let σ := call_Bounds b
    (fun o => Bounds_translate o (- vx (radiusV this)) (- vy (radiusV this))) σ in
  (this, σ).

(** [new Ellipse(x, y, w, h)], lines 15 to 70. *)
Definition new_Ellipse (σ : gmap loc Bounds) (x y w h : N) : World :=
  let this :=
    {| pos := Vector2d_new; _bounds := None; radius := js_NaN;
       radiusV := Vector2d_new; radiusSq := Vector2d_new;
       ratio := Vector2d_new; shapeType := "Ellipse" |} in
  setShape (this, σ) x y w h.

(** [onResetEvent(x, y, w, h)], lines 73 to 75. *)
Definition onResetEvent (wd : World) (x y w h : N) : World :=
  setShape wd x y w h.

(** [rotate(angle, v)], lines 116 to 122. *)
Definition rotate (wd : World) (angle : N) (v : option Vector2d) : World :=
  let '(this, σ) := wd in
  let this := set_pos this (Vector2d_rotate (pos this) angle v) in
  let '(b, (this, σ)) := getBounds (this, σ) in
  let σ := call_Bounds b (fun o => Bounds_shift o (pos this)) σ in
  let '(b, (this, σ)) := getBounds (this, σ) in
  let σ := call_Bounds b
    (fun o => Bounds_translate o (- vx (radiusV this)) (- vy (radiusV this))) σ in
  (this, σ).

(** [scale(x, y)], lines 133 to 141; [y] is [None] when it is omitted
    ([typeof (y) !== "undefined"] fails). *)
Definition scale (wd : World) (x : N) (y : option N) : World :=
  let '(this, σ) := wd in
  let y := match y with Some y => y | None => x end in
  setShape (this, σ)
    (vx (pos this))
    (vy (pos this))
    (vx (radiusV this) * js_two * x)
    (vy (radiusV this) * js_two * y).

(** [scaleV(v)], lines 151 to 153. *)
Definition scaleV (wd : World) (v : Vector2d) : World :=
  scale wd (vx v) (Some (vy v)).

(** [transform(m)], lines 163 to 166: the matrix is ignored. *)
Definition transform {Matrix2d : Type} (wd : World) (m : Matrix2d) : World :=
  wd.

(** The [_x], [_y] both [translate] and [contains] read off their
    arguments, lines 186 to 196 and 224 to 234. *)
Definition args_x (a : Arguments) : N :=
  match a with XY x _ => x | Vec v => vx v end.
Definition args_y (a : Arguments) : N :=
  match a with XY _ y => y | Vec v => vy v end.

(** [translate(...)], lines 185 to 203. *)
Definition translate (wd : World) (a : Arguments) : World :=
  let '(this, σ) := wd in
  let _x := args_x a in
  let _y := args_y a in
  let this := set_pos this (mkVector2d (vx (pos this) + _x) (vy (pos this))) in
  let this := set_pos this (mkVector2d (vx (pos this)) (vy (pos this) + _y)) in
  let '(b, (this, σ)) := getBounds (this, σ) in
  let σ := call_Bounds b (fun o => Bounds_translate o _x _y) σ in
  (this, σ).

(** [contains(...)], lines 223 to 244. *)
Definition contains (this : Ellipse) (a : Arguments) : bool :=
  let _x := args_x a in
  let _y := args_y a in
  let _x := _x - vx (pos this) in
  let _y := _y - vy (pos this) in
  ((_x * _x) / vx (radiusSq this)) + ((_y * _y) / vy (radiusSq this))
    <=? js_one.

(** [clone()], lines 267 to 274. *)
Definition clone (wd : World) : World :=
  let '(this, σ) := wd in
  new_Ellipse σ
    (vx (pos this))
    (vy (pos this))
    (vx (radiusV this) * js_two)
    (vy (radiusV this) * js_two).

End Ellipse.

Arguments Vector2d N : clear implicits.
Arguments Bounds N : clear implicits.
Arguments Ellipse N : clear implicits.
Arguments Arguments N : clear implicits.
Arguments World N : clear implicits.

(** A constructed ellipse: its [_bounds] names an object of the store. *)
Definition alive {N : Type} (wd : World N) (l : loc) (b : Bounds N) : Prop :=
  _bounds (fst wd) = Some l /\ snd wd !! l = Some b.

(** The invariants of section 3 of the specification that link the derived
    fields to the width [w] and height [h] last given to [setShape]. *)
Definition shaped {N : Type} `{JSNumber N} (e : Ellipse N) (w h : N) : Prop :=
  let hW := (w / js_two)%js in
  let hH := (h / js_two)%js in
  radius e = Math_max hW hH /\
  ratio e = mkVector2d (hW / radius e)%js (hH / radius e)%js /\
  radiusV e = mkVector2d (radius e * vx (ratio e))%js
                         (radius e * vy (ratio e))%js /\
  radiusSq e = mkVector2d (radius e * radius e * vx (ratio e))%js
                          (radius e * radius e * vy (ratio e))%js.

(** The box [setShape(x, y, w, h)] leaves in the store, [rv] being the
    [radiusV] it has just computed. *)
Definition shape_box {N : Type} `{JSNumber N} (x y w h : N)
    (rv : Vector2d N) : Bounds N :=
  mkBounds (mkVector2d (x + - vx rv)%js (y + - vy rv)%js)
           (mkVector2d (x + w + - vx rv)%js (x + h + - vy rv)%js).

(** The calls that mutate an ellipse, as values: used to state that a
    call on one object leaves another one alone. *)
Inductive Mutation (N : Type) : Type :=
  | CallSetShape (x y w h : N)
  | CallOnResetEvent (x y w h : N)
  | CallRotate (angle : N) (v : option (Vector2d N))
  | CallScale (x : N) (y : option N)
  | CallScaleV (v : Vector2d N)
  | CallTransform
  | CallTranslate (a : Arguments N).

Arguments CallSetShape {N} x y w h.
Arguments CallOnResetEvent {N} x y w h.
Arguments CallRotate {N} angle v.
Arguments CallScale {N} x y.
Arguments CallScaleV {N} v.
Arguments CallTransform {N}.
Arguments CallTranslate {N} a.

(** The effect of a call. *)
Definition run {N : Type} `{JSNumber N}
    (rot : Vector2d N -> N -> option (Vector2d N) -> Vector2d N)
    (pooled : Bounds N) (m : Mutation N) (wd : World N) : World N :=
  match m with
  | CallSetShape x y w h => setShape pooled wd x y w h
  | CallOnResetEvent x y w h => onResetEvent pooled wd x y w h
  | CallRotate angle v => rotate rot pooled wd angle v
  | CallScale x y => scale pooled wd x y
  | CallScaleV v => scaleV pooled wd v
  | CallTransform => transform wd tt
  | CallTranslate a => translate pooled wd a
  end.

(** A sequence of calls on one ellipse. *)
Definition run_all {N : Type} `{JSNumber N}
    (rot : Vector2d N -> N -> option (Vector2d N) -> Vector2d N)
    (pooled : Bounds N) (ms : list (Mutation N)) (wd : World N) : World N :=
  foldl (fun wd m => run rot pooled m wd) wd ms.

(** Two ellipses over one store, and calls made on the one or the other
    in any order. *)
Inductive Target : Type := OnOriginal | OnClone.

Definition Target_eqb (t u : Target) : bool :=
  match t, u with
  | OnOriginal, OnOriginal | OnClone, OnClone => true
  | _, _ => false
  end.

(** One call, on the original [e] or on the clone [c]. *)
Definition run_on {N : Type} `{JSNumber N}
    (rot : Vector2d N -> N -> option (Vector2d N) -> Vector2d N)
    (pooled : Bounds N)
    (st : Ellipse N * Ellipse N * gmap loc (Bounds N))
    (call : Target * Mutation N) :
    Ellipse N * Ellipse N * gmap loc (Bounds N) :=
  let '(e, c, σ) := st in
  match fst call with
  | OnOriginal =>
      let '(e', σ') := run rot pooled (snd call) (e, σ) in (e', c, σ')
  | OnClone =>
      let '(c', σ') := run rot pooled (snd call) (c, σ) in (e, c', σ')
  end.

(** A sequence of calls on the two. *)
Definition run_calls {N : Type} `{JSNumber N}
    (rot : Vector2d N -> N -> option (Vector2d N) -> Vector2d N)
    (pooled : Bounds N) (calls : list (Target * Mutation N))
    (st : Ellipse N * Ellipse N * gmap loc (Bounds N)) :
    Ellipse N * Ellipse N * gmap loc (Bounds N) :=
  foldl (run_on rot pooled) st calls.

(** The calls of a sequence that are made on [t]. *)
Fixpoint calls_on {N : Type} (t : Target)
    (calls : list (Target * Mutation N)) : list (Mutation N) :=
  match calls with
  | nil => nil
  | (u, m) :: rest =>
      if Target_eqb t u then m :: calls_on t rest else calls_on t rest
  end.

(** The bounds object of an ellipse, read from the store. *)
Definition bounds_of {N : Type} (wd : World N) : option (Bounds N) :=
  match _bounds (fst wd) with
  | Some l => snd wd !! l
  | None => None
  end.

(** What can be seen of an ellipse: its fields and its bounds. *)
Definition view {N : Type} (wd : World N) : Ellipse N * option (Bounds N) :=
  (fst wd, bounds_of wd).

(** Vectors and boxes of the same numbers. *)
Definition Vsame (v w : Vector2d Exact.t) : Prop :=
  Exact.same (vx v) (vx w) /\ Exact.same (vy v) (vy w).

(** Vectors and boxes of finite numbers. *)
Definition Vfinite (v : Vector2d Exact.t) : bool :=
  Exact.finite (vx v) && Exact.finite (vy v).
Definition Bfinite (b : Bounds Exact.t) : bool :=
  Vfinite (bmin b) && Vfinite (bmax b).

(** [scale] in the words of the specification: "re-deriving full
    width/height from current [radiusV] ([newW = radiusV.x * 2 * sx],
    [newH = radiusV.y * 2 * sy]) and calling [setShape] with the current
    center", [sy] being [sx] when it is omitted. *)
Definition scale_spec {N : Type} `{JSNumber N} (pooled : Bounds N)
    (wd : World N) (sx : N) (sy : option N) : World N :=
  let sy := default sx sy in
  let newW := (vx (radiusV (fst wd)) * js_two * sx)%js in
  let newH := (vy (radiusV (fst wd)) * js_two * sy)%js in
  setShape pooled wd (vx (pos (fst wd))) (vy (pos (fst wd))) newW newH.

(** *** The scenarios of the specification *)

(** A pooled instance, for the scenarios: any box will do, here the empty
    box at the origin. *)
Definition pooled0 {N : Type} `{JSNumber N} : Bounds N :=
  mkBounds Vector2d_new Vector2d_new.

(** [new Ellipse(0, 0, 4, 2)] in an empty store, in exact arithmetic and
    on doubles. *)
Definition scenario_exact : World Exact.t :=
  new_Ellipse pooled0 ∅ (Exact.of_Z 0) (Exact.of_Z 0) (Exact.of_Z 4)
    (Exact.of_Z 2).
Definition scenario_float : World float :=
  new_Ellipse pooled0 ∅ 0%float 0%float 4%float 2%float.

(** [new Ellipse(0, 10, 4, 2)]: a center off the diagonal [x = y]. *)
Definition offdiag_exact : World Exact.t :=
  new_Ellipse pooled0 ∅ (Exact.of_Z 0) (Exact.of_Z 10) (Exact.of_Z 4)
    (Exact.of_Z 2).
Definition offdiag_float : World float :=
  new_Ellipse pooled0 ∅ 0%float 10%float 4%float 2%float.

(** *** The two instances side by side *)

(** The vector of doubles an exact vector stands for. *)
Definition to_float_V (v : Vector2d Exact.t) : Vector2d float :=
  mkVector2d (to_float (vx v)) (to_float (vy v)).

(** Two vectors of doubles with the same bits. *)
Definition same_float_V (v w : Vector2d float) : bool :=
  PrimFloat.Leibniz.eqb (vx v) (vx w) && PrimFloat.Leibniz.eqb (vy v) (vy w).

(** The fields of an exact ellipse and its bounds stand for those of an
    ellipse on doubles. *)
Definition same_float_World (wd : World Exact.t) (wf : World float) : bool :=
  PrimFloat.Leibniz.eqb (to_float (radius (fst wd))) (radius (fst wf)) &&
  same_float_V (to_float_V (pos (fst wd))) (pos (fst wf)) &&
  same_float_V (to_float_V (ratio (fst wd))) (ratio (fst wf)) &&
  same_float_V (to_float_V (radiusV (fst wd))) (radiusV (fst wf)) &&
  same_float_V (to_float_V (radiusSq (fst wd))) (radiusSq (fst wf)) &&
  match bounds_of wd, bounds_of wf with
  | Some b, Some b' =>
      same_float_V (to_float_V (bmin b)) (bmin b') &&
      same_float_V (to_float_V (bmax b)) (bmax b')
  | _, _ => false
  end.

(** [new Ellipse(1, 2, w, h)], its clone and [contains] on all pairs of
    samples, in exact arithmetic and on doubles. *)
Definition agree_Ellipse (w h : Exact.t) : bool :=
  let wd := new_Ellipse pooled0 ∅ (Exact.of_Z 1) (Exact.of_Z 2) w h in
  let wf := new_Ellipse pooled0 ∅ 1%float 2%float (to_float w) (to_float h) in
  same_float_World wd wf &&
  same_float_World (clone pooled0 wd) (clone pooled0 wf) &&
  forallb (fun x => forallb (fun y =>
    Bool.eqb (contains (fst wd) (XY x y))
             (contains (fst wf) (XY (to_float x) (to_float y))))
    samples) samples.

(** A quarter turn about the pivot, an exact rotation: stands for
    [Vector2d.rotate] where an instance of it is needed. *)
Definition quarter_turn (p : Vector2d Exact.t) (angle : Exact.t)
    (v : option (Vector2d Exact.t)) : Vector2d Exact.t :=
  let c := match v with Some c => c | None => Vector2d_new end in
  mkVector2d (vx c - (vy p - vy c))%js (vy c + (vx p - vx c))%js.

(** A half turn about the pivot, in any arithmetic: the point reflection
    [c + (c - p)]; stands for [Vector2d.rotate] by 180 degrees where an
    instance of it is needed. *)
Definition half_turn {N : Type} `{JSNumber N} (p : Vector2d N) (angle : N)
    (v : option (Vector2d N)) : Vector2d N :=
  let c := match v with Some c => c | None => Vector2d_new end in
  mkVector2d (vx c + (vx c - vx p))%js (vy c + (vy c - vy p))%js.

(* ================================================================== *)
(** ** The arithmetic of [Exact.t] is that of doubles on the samples *)
(* ================================================================== *)

(** On the special values and on small dyadic numbers, where doubles do not
    round, every operation of [Exact.t] gives what binary64 gives, the
    sign of zero included. *)
Lemma exact_agrees_with_binary64_on_samples :
  agree2 Exact.add PrimFloat.add = true /\
  agree2 Exact.sub PrimFloat.sub = true /\
  agree2 Exact.mul PrimFloat.mul = true /\
  agree2 Exact.div PrimFloat.div = true /\
  agree2 Exact.max Binary64.max = true /\
  forallb (fun a =>
    PrimFloat.Leibniz.eqb (to_float (Exact.neg a))
      (PrimFloat.opp (to_float a))) samples = true /\
  forallb (fun a => forallb (fun b =>
    Bool.eqb (Exact.le a b) (PrimFloat.leb (to_float a) (to_float b)))
    samples) samples = true.
Proof.
  repeat split; vm_compute; reflexivity.
Qed.

(** So does the embedding: on every pair of sample sizes, special values
    included, the constructor, [clone] and [contains] compute in exact
    arithmetic what they compute on doubles. *)
Lemma Ellipse_agrees_with_binary64_on_samples :
  forallb (fun w => forallb (agree_Ellipse w) samples) samples = true.
Proof.
  vm_compute. reflexivity.
Qed.

(* ================================================================== *)
(** ** The store and the methods, for any arithmetic *)
(* ================================================================== *)

(** Unfolds the field updates and the collaborators' operations. *)
Ltac unfold_fields :=
  unfold set_pos, set__bounds, set_radius, set_radiusV, set_radiusSq,
    set_ratio, Vector2d_set, Vector2d_scaleV, Vector2d_new,
    Bounds_setMinMax, Bounds_translate, Bounds_shift, Bounds_size,
    Bounds_topLeft, shape_box in *; simpl in *.

Section Generic.

Context {N : Type} `{JSNumber N}.
Variable rot : Vector2d N -> N -> option (Vector2d N) -> Vector2d N.
Variable pooled : Bounds N.
Local Open Scope js_scope.

Implicit Types (σ : gmap loc (Bounds N)) (e : Ellipse N) (b : Bounds N)
  (l : loc).

Lemma call_Bounds_at σ l b m :
  σ !! l = Some b -> call_Bounds l m σ = <[l := m b]> σ.
Proof.
  intros Hl. apply map_eq. intros j. unfold call_Bounds.
  destruct (decide (l = j)) as [->|Hne].
  - rewrite lookup_alter_eq, lookup_insert_eq, Hl. reflexivity.
  - rewrite lookup_alter_ne, lookup_insert_ne by assumption. reflexivity.
Qed.

(** What [setShape] computes, on an ellipse whose bounds exist. *)
Lemma setShape_alive e σ l b x y w h :
  alive (e, σ) l b ->
  let m := Math_max (w / js_two) (h / js_two) in
  let rt := mkVector2d (w / js_two / m) (h / js_two / m) in
  let rv := mkVector2d (m * vx rt) (m * vy rt) in
  let sq := mkVector2d (m * m * vx rt) (m * m * vy rt) in
  setShape pooled (e, σ) x y w h =
    (mkEllipse (mkVector2d x y) (Some l) m rv sq rt (shapeType e),
     <[l := shape_box x y w h rv]> σ).
Proof.
  intros [Hb Hl] m rt rv sq. destruct e. simpl in Hb, Hl. subst.
  unfold setShape, getBounds. simpl.
  rewrite (call_Bounds_at σ l b) by assumption.
  rewrite (call_Bounds_at _ l _ _ (lookup_insert_eq _ _ _)).
  rewrite insert_insert_eq. unfold_fields. reflexivity.
Qed.

(** What [setShape] computes in the constructor, where the bounds are
    still to be pulled from the pool. *)
Lemma setShape_fresh e σ x y w h :
  _bounds e = None ->
  let l := fresh (dom σ) in
  let m := Math_max (w / js_two) (h / js_two) in
  let rt := mkVector2d (w / js_two / m) (h / js_two / m) in
  let rv := mkVector2d (m * vx rt) (m * vy rt) in
  let sq := mkVector2d (m * m * vx rt) (m * m * vy rt) in
  setShape pooled (e, σ) x y w h =
    (mkEllipse (mkVector2d x y) (Some l) m rv sq rt (shapeType e),
     <[l := shape_box x y w h rv]> σ).
Proof.
  intros Hb l m rt rv sq. destruct e. simpl in Hb. subst.
  unfold setShape, getBounds, pool_pull. simpl. fold l.
  rewrite (call_Bounds_at _ l _ _ (lookup_insert_eq _ _ _)).
  rewrite (call_Bounds_at _ l _ _ (lookup_insert_eq _ _ _)).
  rewrite !insert_insert_eq. unfold_fields. reflexivity.
Qed.

(** [new Ellipse(x, y, w, h)] pulls its bounds from the pool. *)
Lemma new_Ellipse_eq σ x y w h :
  let l := fresh (dom σ) in
  let m := Math_max (w / js_two) (h / js_two) in
  let rt := mkVector2d (w / js_two / m) (h / js_two / m) in
  let rv := mkVector2d (m * vx rt) (m * vy rt) in
  let sq := mkVector2d (m * m * vx rt) (m * m * vy rt) in
  new_Ellipse pooled σ x y w h =
    (mkEllipse (mkVector2d x y) (Some l) m rv sq rt "Ellipse",
     <[l := shape_box x y w h rv]> σ).
Proof.
  intros l m rt rv sq. unfold new_Ellipse.
  rewrite setShape_fresh by reflexivity. reflexivity.
Qed.

Lemma new_Ellipse_alive σ x y w h :
  exists l b, alive (new_Ellipse pooled σ x y w h) l b /\ σ !! l = None.
Proof.
  rewrite new_Ellipse_eq. eexists _, _. split.
  - split; simpl; [reflexivity | apply lookup_insert_eq].
  - apply not_elem_of_dom, is_fresh.
Qed.

(** What [translate] computes. *)
Lemma translate_alive e σ l b a :
  alive (e, σ) l b ->
  translate pooled (e, σ) a =
    (set_pos e (mkVector2d (vx (pos e) + args_x a) (vy (pos e) + args_y a)),
     <[l := Bounds_translate b (args_x a) (args_y a)]> σ).
Proof.
  intros [Hb Hl]. destruct e. simpl in Hb, Hl. subst.
  unfold translate, getBounds. simpl.
  rewrite (call_Bounds_at σ l b) by assumption.
  unfold_fields. reflexivity.
Qed.

(** What [rotate] computes. *)
Lemma rotate_alive e σ l b angle v :
  alive (e, σ) l b ->
  let p := rot (pos e) angle v in
  rotate rot pooled (e, σ) angle v =
    (set_pos e p,
     <[l := Bounds_translate (Bounds_shift b p)
              (- vx (radiusV e)) (- vy (radiusV e))]> σ).
Proof.
  intros [Hb Hl] p. destruct e. simpl in Hb, Hl. subst.
  unfold rotate, getBounds. simpl.
  rewrite (call_Bounds_at σ l b) by assumption.
  rewrite (call_Bounds_at _ l _ _ (lookup_insert_eq _ _ _)).
  rewrite insert_insert_eq. unfold_fields. reflexivity.
Qed.

(** A call on a constructed ellipse reads and writes the fields of the
    ellipse and its bounds object, and nothing else of the store. *)
Lemma run_local m e l b :
  _bounds e = Some l ->
  exists e' b', _bounds e' = Some l /\
    forall σ, σ !! l = Some b ->
      run rot pooled m (e, σ) = (e', <[l := b']> σ).
Proof.
  intros He.
  assert (Hset : forall x y w h, exists e' b', _bounds e' = Some l /\
    forall σ, σ !! l = Some b ->
      setShape pooled (e, σ) x y w h = (e', <[l := b']> σ)).
  { intros x y w h. eexists _, _. split; [|intros σ Hl].
    2: rewrite (setShape_alive e σ l b) by (split; assumption); reflexivity.
    reflexivity. }
  destruct m as [x y w h|x y w h|angle v|x y|v| |a]; cbn [run].
  - apply Hset.
  - unfold onResetEvent. apply Hset.
  - eexists _, _. split; [|intros σ Hl].
    2: rewrite (rotate_alive e σ l b) by (split; assumption); reflexivity.
    exact He.
  - unfold scale. apply Hset.
  - unfold scaleV, scale. apply Hset.
  - exists e, b. split; [exact He|intros σ Hl].
    unfold transform. rewrite insert_id by exact Hl. reflexivity.
  - eexists _, _. split; [|intros σ Hl].
    2: rewrite (translate_alive e σ l b) by (split; assumption); reflexivity.
    exact He.
Qed.

(** Every call on a constructed ellipse keeps its bounds object and
    writes to no other object of the store. *)
Lemma run_frame m e σ l b :
  alive (e, σ) l b ->
  exists b', alive (run rot pooled m (e, σ)) l b' /\
    forall l', l' <> l -> snd (run rot pooled m (e, σ)) !! l' = σ !! l'.
Proof.
  intros [He Hl]. cbn [fst snd] in He, Hl.
  destruct (run_local m e l b He) as (e' & b' & He' & Hrun).
  rewrite (Hrun σ Hl). exists b'. split.
  - split; cbn [fst snd]; [exact He' | apply lookup_insert_eq].
  - intros l' Hne. cbn [snd]. apply lookup_insert_ne. congruence.
Qed.

(** Calls made in any order on two constructed ellipses with distinct
    bounds: each ellipse and its bounds end as if the calls on it had been
    made alone, in whatever store. *)
Lemma run_calls_independent calls :
  forall e c σ σe σc l l' be bc,
  l <> l' ->
  alive (e, σ) l be -> alive (c, σ) l' bc ->
  alive (e, σe) l be -> alive (c, σc) l' bc ->
  view (fst (fst (run_calls rot pooled calls (e, c, σ))),
        snd (run_calls rot pooled calls (e, c, σ))) =
    view (run_all rot pooled (calls_on OnOriginal calls) (e, σe)) /\
  view (snd (fst (run_calls rot pooled calls (e, c, σ))),
        snd (run_calls rot pooled calls (e, c, σ))) =
    view (run_all rot pooled (calls_on OnClone calls) (c, σc)).
Proof.
  induction calls as [|[t m] calls IH];
    intros e c σ σe σc l l' be bc Hne Hae Hac Hae' Hac'.
  - cbn. unfold view, bounds_of. cbn [fst snd].
    destruct Hae as [He Hl], Hac as [Hc Hl'], Hae' as [_ Hle], Hac' as [_ Hlc].
    cbn [fst snd] in *. rewrite He, Hc, Hl, Hl', Hle, Hlc. split; reflexivity.
  - destruct Hae as [He Hl], Hac as [Hc Hl'], Hae' as [_ Hle], Hac' as [_ Hlc].
    cbn [fst snd] in *.
    destruct t; cbn [run_calls run_all calls_on Target_eqb foldl run_on fst snd].
    + destruct (run_local m e l be He) as (e1 & b1 & He1 & Hrun).
      rewrite (Hrun σ Hl), (Hrun σe Hle).
      apply (IH e1 c _ _ σc l l' b1 bc Hne).
      * split; cbn [fst snd]; [exact He1 | apply lookup_insert_eq].
      * split; cbn [fst snd]; [exact Hc|].
        rewrite lookup_insert_ne by exact Hne. exact Hl'.
      * split; cbn [fst snd]; [exact He1 | apply lookup_insert_eq].
      * split; cbn [fst snd]; assumption.
    + destruct (run_local m c l' bc Hc) as (c1 & b1 & Hc1 & Hrun).
      rewrite (Hrun σ Hl'), (Hrun σc Hlc).
      apply (IH e c1 _ σe _ l l' be b1 Hne).
      * split; cbn [fst snd]; [exact He|].
        rewrite lookup_insert_ne by congruence. exact Hl.
      * split; cbn [fst snd]; [exact Hc1 | apply lookup_insert_eq].
      * split; cbn [fst snd]; assumption.
      * split; cbn [fst snd]; [exact Hc1 | apply lookup_insert_eq].
Qed.

(** The fields [setShape] leaves in [this], whatever the store holds. *)
Lemma setShape_fields e σ x y w h :
  let m := Math_max (w / js_two) (h / js_two) in
  let rt := mkVector2d (w / js_two / m) (h / js_two / m) in
  let e' := fst (setShape pooled (e, σ) x y w h) in
  pos e' = mkVector2d x y /\
  radius e' = m /\
  ratio e' = rt /\
  radiusV e' = mkVector2d (m * vx rt) (m * vy rt) /\
  radiusSq e' = mkVector2d (m * m * vx rt) (m * m * vy rt).
Proof.
  destruct e as [p ob r rv sq rt0 st].
  unfold setShape, getBounds, pool_pull. simpl.
  destruct ob as [l|]; simpl; repeat split; reflexivity.
Qed.

(** [setShape] establishes the invariants of section 3. *)
Lemma setShape_shaped e σ x y w h :
  shaped (fst (setShape pooled (e, σ) x y w h)) w h.
Proof.
  destruct (setShape_fields e σ x y w h) as (_ & Hr & Hrt & Hrv & Hsq).
  unfold shaped. rewrite Hrv, Hsq, Hrt, Hr. simpl. repeat split; reflexivity.
Qed.

Lemma new_Ellipse_shaped σ x y w h :
  shaped (fst (new_Ellipse pooled σ x y w h)) w h.
Proof.
  unfold new_Ellipse. apply setShape_shaped.
Qed.

(** [translate] and [rotate] leave the derived fields alone. *)
Lemma translate_shaped e σ a w h :
  shaped e w h -> shaped (fst (translate pooled (e, σ) a)) w h.
Proof.
  destruct e as [p ob r rv sq rt st]. unfold translate, getBounds, pool_pull.
  destruct ob; intros Hs; exact Hs.
Qed.

Lemma rotate_shaped e σ angle v w h :
  shaped e w h -> shaped (fst (rotate rot pooled (e, σ) angle v)) w h.
Proof.
  destruct e as [p ob r rv sq rt st]. unfold rotate, getBounds, pool_pull.
  destruct ob; intros Hs; exact Hs.
Qed.

(** The invariants of section 3 hold from the constructor on. *)
Lemma run_shaped m e σ w h :
  shaped e w h ->
  exists w' h', shaped (fst (run rot pooled m (e, σ))) w' h'.
Proof.
  intros Hs.
  destruct m as [x y w' h'|x y w' h'|angle v|x y|v| |a]; cbn [run].
  - exists w', h'. apply setShape_shaped.
  - exists w', h'. apply setShape_shaped.
  - exists w, h. apply rotate_shaped, Hs.
  - eexists _, _. unfold scale. apply setShape_shaped.
  - eexists _, _. unfold scaleV, scale. apply setShape_shaped.
  - exists w, h. exact Hs.
  - exists w, h. apply translate_shaped, Hs.
Qed.

(** Every ellipse, that is every state the constructor and then any calls
    lead to, is constructed and has the invariants of section 3. *)
Lemma every_Ellipse σ x y w h ms :
  exists l b w' h',
    alive (run_all rot pooled ms (new_Ellipse pooled σ x y w h)) l b /\
    shaped (fst (run_all rot pooled ms (new_Ellipse pooled σ x y w h)))
      w' h'.
Proof.
  destruct (new_Ellipse_alive σ x y w h) as (l & b & Ha & _).
  pose proof (new_Ellipse_shaped σ x y w h) as Hs.
  revert Ha Hs. generalize (new_Ellipse pooled σ x y w h).
  revert b w h.
  induction ms as [|m ms IH]; intros b w h [e σ0] Ha Hs.
  - exists l, b, w, h. split; assumption.
  - cbn [run_all foldl].
    destruct (run_frame m e σ0 l b Ha) as (b' & Ha' & _).
    destruct (run_shaped m e σ0 w h Hs) as (w' & h' & Hs').
    destruct (run rot pooled m (e, σ0)) as [e1 σ1] eqn:Hrun.
    apply (IH b' w' h' (e1, σ1)); assumption.
Qed.

(** [rotate] writes [pos] and the bounds object of the ellipse and leaves
    every other field and every other object of the store alone; the
    bounds end with their top-left corner at the rotated point moved by
    [-radiusV]. *)
Lemma rotate_frame e σ l b angle v :
  alive (e, σ) l b ->
  let p := rot (pos e) angle v in
  let wd' := rotate rot pooled (e, σ) angle v in
  radius (fst wd') = radius e /\ ratio (fst wd') = ratio e /\
  radiusV (fst wd') = radiusV e /\ radiusSq (fst wd') = radiusSq e /\
  shapeType (fst wd') = shapeType e /\
  pos (fst wd') = p /\
  (forall l', l' <> l -> snd wd' !! l' = σ !! l') /\
  exists b', alive wd' l b' /\
    Bounds_topLeft b' =
      mkVector2d (vx p + - vx (radiusV e)) (vy p + - vy (radiusV e)).
Proof.
  intros Ha p wd'. subst wd'.
  rewrite (rotate_alive e σ l b angle v Ha). fold p.
  cbn [fst snd].
  repeat (split; [reflexivity|]).
  split.
  { intros l' Hne. apply lookup_insert_ne. congruence. }
  eexists. split.
  { split; cbn [fst snd]; [apply Ha | apply lookup_insert_eq]. }
  reflexivity.
Qed.

(** [clone()] returns an ellipse with the center of the original, whose
    bounds are an object that was not in the store before.  Whatever calls
    are then made on the original and on the clone, in any order, the
    original and its bounds end as if it had never been cloned, and the
    clone and its bounds end as if the calls on it had been made alone. *)
Lemma clone_separate e σ l b :
  alive (e, σ) l b ->
  let c := fst (clone pooled (e, σ)) in
  let σ' := snd (clone pooled (e, σ)) in
  pos c = pos e /\
  shapeType c = "Ellipse"%string /\
  (exists l' b',
     alive (c, σ') l' b' /\ l' <> l /\ σ !! l' = None /\
     alive (e, σ') l b) /\
  (forall calls,
     let st := run_calls rot pooled calls (e, c, σ') in
     view (fst (fst st), snd st) =
       view (run_all rot pooled (calls_on OnOriginal calls) (e, σ)) /\
     view (snd (fst st), snd st) =
       view (run_all rot pooled (calls_on OnClone calls) (c, σ'))).
Proof.
  intros Ha c σ'.
  assert (Hfresh : σ !! fresh (dom σ) = None)
    by apply not_elem_of_dom, is_fresh.
  assert (Hne : fresh (dom σ) <> l).
  { intros Heq. destruct Ha as [_ Hl]. cbn [snd] in Hl.
    rewrite Heq in Hfresh. congruence. }
  assert (Hc : pos c = pos e /\ _bounds c = Some (fresh (dom σ)) /\
               shapeType c = "Ellipse"%string).
  { subst c. unfold clone. rewrite new_Ellipse_eq. cbn [fst pos _bounds].
    destruct e as [[px py] ob r rv sq rt st]. repeat split; reflexivity. }
  destruct Hc as (Hpos & Hbc & Hst).
  assert (Hσ : exists b', σ' = <[fresh (dom σ) := b']> σ).
  { subst σ'. unfold clone. rewrite new_Ellipse_eq. cbn [snd].
    eexists. reflexivity. }
  destruct Hσ as [b' Hσ].
  assert (Hac : alive (c, σ') (fresh (dom σ)) b').
  { split; cbn [fst snd]; [exact Hbc|].
    rewrite Hσ. apply lookup_insert_eq. }
  assert (Hae : alive (e, σ') l b).
  { split; cbn [fst snd]; [apply Ha|].
    rewrite Hσ, lookup_insert_ne by exact Hne. apply Ha. }
  split; [exact Hpos|]. split; [exact Hst|].
  split.
  - exists (fresh (dom σ)), b'.
    split; [exact Hac|]. split; [exact Hne|]. split; [exact Hfresh|].
    exact Hae.
  - intros calls st. subst st.
    apply (run_calls_independent calls e c σ' σ σ' l
             (fresh (dom σ)) b b'); try assumption.
    congruence.
Qed.

End Generic.

(* ================================================================== *)
(** ** Exact arithmetic *)
(* ================================================================== *)

Module ExactFacts.
Import Exact.
Local Open Scope Qc_scope.

Lemma two_pos : 0 < Qc_of_Z 2.
Proof. reflexivity. Qed.

Lemma two_nonzero : Qc_of_Z 2 <> 0.
Proof. intros Heq. discriminate Heq. Qed.

Lemma signb_Fin_nonneg q : 0 <= q -> signb (Fin q) = false.
Proof.
  intros Hq. simpl. apply bool_decide_eq_false. apply Qcle_not_lt, Hq.
Qed.

Lemma mkfin_nonzero q s : q <> 0 -> mkfin q s = Fin q.
Proof.
  intros Hq. unfold mkfin. rewrite bool_decide_eq_false_2; [reflexivity|assumption].
Qed.

Lemma is_zero_Fin_pos q : 0 < q -> is_zero (Fin q) = false.
Proof.
  intros Hq. simpl. apply bool_decide_eq_false.
  apply not_eq_sym, Qclt_not_eq, Hq.
Qed.

(** Division of a finite number by a positive one is the rational
    quotient. *)
Lemma div_Fin_pos p q : 0 < q -> div (Fin p) (Fin q) = Fin (p / q).
Proof.
  intros Hq. unfold div. rewrite (is_zero_Fin_pos q Hq).
  rewrite (signb_Fin_nonneg q) by (apply Qclt_le_weak, Hq).
  rewrite xorb_false_r.
  unfold qval, mkfin. case_bool_decide as Hz; [|reflexivity].
  assert (Hp : p = 0).
  { assert (Hpq : p = p / q * q) by (field; apply not_eq_sym, Qclt_not_eq, Hq).
    rewrite Hpq, Hz. ring. }
  subst p. rewrite Hz. reflexivity.
Qed.

(** Multiplication by a positive finite number is the rational product. *)
Lemma mul_Fin_pos_l p q : 0 < p -> mul (Fin p) (Fin q) = Fin (p * q).
Proof.
  intros Hp. unfold mul.
  rewrite (signb_Fin_nonneg p) by (apply Qclt_le_weak, Hp).
  rewrite xorb_false_l.
  unfold qval, mkfin. case_bool_decide as Hz; [|reflexivity].
  assert (Hq : q = 0).
  { assert (Hpq : q = p * q / p) by (field; apply not_eq_sym, Qclt_not_eq, Hp).
    rewrite Hpq, Hz. field. apply not_eq_sym, Qclt_not_eq, Hp. }
  subst q. rewrite Hz. reflexivity.
Qed.

Lemma mul_Fin_pos_r p q : 0 < q -> mul (Fin p) (Fin q) = Fin (p * q).
Proof.
  intros Hq. unfold mul.
  rewrite (signb_Fin_nonneg q) by (apply Qclt_le_weak, Hq).
  rewrite xorb_false_r.
  unfold qval, mkfin. case_bool_decide as Hz; [|reflexivity].
  assert (Hp : p = 0).
  { assert (Hpq : p = p * q / q) by (field; apply not_eq_sym, Qclt_not_eq, Hq).
    rewrite Hpq, Hz. field. apply not_eq_sym, Qclt_not_eq, Hq. }
  subst p. rewrite Hz. reflexivity.
Qed.

(** [Math.max] of two finite numbers given as rationals. *)
Lemma max_Fin p q : max (Fin p) (Fin q) = Fin (Qcmax p q).
Proof.
  unfold max, Qcmax, qval.
  case_bool_decide as Hpq; [reflexivity|].
  case_bool_decide as Hqp; [reflexivity|].
  assert (p = q) as -> by (apply Qcle_antisym; apply Qcnot_lt_le; assumption).
  destruct (signb (Fin q)); reflexivity.
Qed.

Lemma Qcmax_l p q : p <= Qcmax p q.
Proof.
  unfold Qcmax. case_bool_decide as Hpq.
  - apply Qclt_le_weak, Hpq.
  - apply Qcle_refl.
Qed.

Lemma Qcmax_r p q : q <= Qcmax p q.
Proof.
  unfold Qcmax. case_bool_decide as Hpq.
  - apply Qcle_refl.
  - apply Qcnot_lt_le, Hpq.
Qed.

Lemma Qcmax_cases p q : Qcmax p q = p \/ Qcmax p q = q.
Proof.
  unfold Qcmax. case_bool_decide; [right|left]; reflexivity.
Qed.

Lemma Qcdiv_le_1 p m : 0 < m -> p <= m -> p / m <= 1.
Proof.
  intros Hm Hp. unfold Qcdiv.
  rewrite <- (Qcmult_inv_r m) by (apply not_eq_sym, Qclt_not_eq, Hm).
  apply Qcmult_le_compat_r; [assumption|].
  apply Qclt_le_weak, Qcinv_pos, Hm.
Qed.

Lemma Qchalf_pos q : 0 < q -> 0 < q / Qc_of_Z 2.
Proof.
  intros Hq. unfold Qcdiv. apply Qcmult_pos_pos; [assumption|].
  apply Qcinv_pos, two_pos.
Qed.

(** The derived fields of [setShape(x, y, w, h)] for finite [w] and [h] of
    which one at least is positive: [m] is the larger half. *)
Lemma shape_exact (w h : Qc) :
  let m := Qcmax (w / Qc_of_Z 2) (h / Qc_of_Z 2) in
  let M := Math_max (Fin w / js_two)%js (Fin h / js_two)%js in
  0 < m ->
  M = Fin m /\
  (Fin w / js_two / M)%js = Fin (w / Qc_of_Z 2 / m) /\
  (Fin h / js_two / M)%js = Fin (h / Qc_of_Z 2 / m) /\
  (M * (Fin w / js_two / M))%js = Fin (w / Qc_of_Z 2) /\
  (M * (Fin h / js_two / M))%js = Fin (h / Qc_of_Z 2) /\
  (M * M * (Fin w / js_two / M))%js = Fin (m * (w / Qc_of_Z 2)) /\
  (M * M * (Fin h / js_two / M))%js = Fin (m * (h / Qc_of_Z 2)).
Proof.
  intros m M Hm. subst M.
  cbv [js_div js_mul js_two Math_max exact_number of_Z].
  rewrite !(div_Fin_pos _ _ two_pos), max_Fin. fold m.
  assert (Hm0 : m <> 0) by apply not_eq_sym, Qclt_not_eq, Hm.
  rewrite !(div_Fin_pos _ _ Hm), !(mul_Fin_pos_l _ _ Hm).
  rewrite !(mul_Fin_pos_l _ _ (Qcmult_pos_pos _ _ Hm Hm)).
  repeat split; f_equal; try field;
    try split; first [assumption | apply two_nonzero | reflexivity].
Qed.

Lemma Qcmax_half_pos (w h : Qc) :
  0 < w \/ 0 < h -> 0 < Qcmax (w / Qc_of_Z 2) (h / Qc_of_Z 2).
Proof.
  intros [Hw|Hh].
  - eapply Qclt_le_trans; [apply Qchalf_pos, Hw | apply Qcmax_l].
  - eapply Qclt_le_trans; [apply Qchalf_pos, Hh | apply Qcmax_r].
Qed.

(** *** Finite numbers: the operations are those of the rationals *)

Lemma finite_mkfin q s : finite (mkfin q s) = true.
Proof.
  unfold mkfin, mkzero. case_bool_decide; [destruct s|]; reflexivity.
Qed.

Lemma qval_mkfin q s : qval (mkfin q s) = q.
Proof.
  unfold mkfin, mkzero.
  case_bool_decide as Hq; [subst q; destruct s|]; reflexivity.
Qed.

Lemma add_finite a b :
  finite a = true -> finite b = true ->
  finite (add a b) = true /\ qval (add a b) = qval a + qval b.
Proof.
  intros Ha Hb.
  destruct a; try discriminate Ha; destruct b; try discriminate Hb;
    unfold add; split; first [apply finite_mkfin | apply qval_mkfin].
Qed.

Lemma neg_finite a :
  finite a = true -> finite (neg a) = true /\ qval (neg a) = - qval a.
Proof.
  intros Ha. destruct a; try discriminate Ha; unfold neg.
  - split; reflexivity.
  - split; [apply finite_mkfin | apply qval_mkfin].
Qed.

Lemma sub_finite a b :
  finite a = true -> finite b = true ->
  finite (sub a b) = true /\ qval (sub a b) = qval a - qval b.
Proof.
  intros Ha Hb. unfold sub.
  destruct (neg_finite b Hb) as [Hf Hq].
  destruct (add_finite a (neg b) Ha Hf) as [Hf' Hq'].
  split; [assumption|]. rewrite Hq', Hq. reflexivity.
Qed.


(** Two finite numbers of one value are the same number. *)
Lemma same_of_qval a b :
  finite a = true -> finite b = true -> qval a = qval b -> same a b.
Proof.
  intros Ha Hb Hq.
  destruct a; try discriminate Ha; destruct b; try discriminate Hb;
    simpl in Hq.
  - left. reflexivity.
  - right. split; [reflexivity|]. simpl. apply bool_decide_eq_true.
    symmetry. exact Hq.
  - right. split; [|reflexivity]. simpl. apply bool_decide_eq_true.
    exact Hq.
  - left. f_equal. exact Hq.
Qed.


(** The width of a finite box moved to [p] and then by [-r]. *)
Lemma moved_size p r lo hi :
  finite p = true -> finite r = true ->
  finite lo = true -> finite hi = true ->
  same (sub (add (add p (sub hi lo)) (neg r)) (add p (neg r))) (sub hi lo).
Proof.
  intros Hp Hr Hlo Hhi.
  destruct (neg_finite r Hr) as [Hnf Hnq].
  destruct (sub_finite hi lo Hhi Hlo) as [Hsf Hsq].
  destruct (add_finite p (sub hi lo) Hp Hsf) as [Hf1 Hq1].
  destruct (add_finite _ (neg r) Hf1 Hnf) as [Hf2 Hq2].
  destruct (add_finite p (neg r) Hp Hnf) as [Hf3 Hq3].
  destruct (sub_finite _ _ Hf2 Hf3) as [Hf4 Hq4].
  apply same_of_qval; [assumption|assumption|].
  rewrite Hq4, Hq2, Hq3, Hq1, Hnq, Hsq. ring.
Qed.

Lemma mul_finite a b :
  finite a = true -> finite b = true ->
  finite (mul a b) = true /\ qval (mul a b) = qval a * qval b.
Proof.
  intros Ha Hb.
  destruct a; try discriminate Ha; destruct b; try discriminate Hb;
    unfold mul; split; first [apply finite_mkfin | apply qval_mkfin].
Qed.

Lemma div_finite a b :
  finite a = true -> finite b = true -> qval b <> 0 ->
  finite (div a b) = true /\ qval (div a b) = qval a / qval b.
Proof.
  intros Ha Hb Hq.
  assert (Hz : is_zero b = false).
  { destruct b; try discriminate Hb; simpl in Hq |- *.
    - contradiction Hq. reflexivity.
    - apply bool_decide_eq_false, Hq. }
  destruct a; try discriminate Ha; destruct b; try discriminate Hb;
    unfold div; rewrite Hz;
    split; first [apply finite_mkfin | apply qval_mkfin].
Qed.

Lemma le_finite a b :
  finite a = true -> finite b = true ->
  le a b = bool_decide (qval a <= qval b).
Proof.
  intros Ha Hb.
  destruct a; try discriminate Ha; destruct b; try discriminate Hb;
    reflexivity.
Qed.

(** *** The shape derived from the semi-axes is the shape *)

Lemma double_half x : div (mul x (Fin (Qc_of_Z 2))) (Fin (Qc_of_Z 2)) = x.
Proof.
  destruct x as [|s| |q].
  - reflexivity.
  - destruct s; reflexivity.
  - reflexivity.
  - rewrite (mul_Fin_pos_r _ _ two_pos), (div_Fin_pos _ _ two_pos).
    f_equal. field. apply two_nonzero.
Qed.

(** A finite radius other than zero gives each semi-axis back. *)
Lemma mul_div_cancel m a : m <> 0 -> mul (Fin m) (div a (Fin m)) = a.
Proof.
  intros Hm.
  assert (Hz : is_zero (Fin m) = false) by (apply bool_decide_eq_false, Hm).
  destruct a as [|s| |q].
  - reflexivity.
  - unfold div. unfold mul. rewrite Hz.
    cbn [signb]. destruct s, (bool_decide (m < 0)); reflexivity.
  - unfold div. rewrite Hz. cbn [qval signb].
    replace (0 / m) with 0 by (field; assumption).
    unfold mkfin. rewrite bool_decide_eq_true_2 by reflexivity.
    destruct (bool_decide (m < 0)) eqn:Hs; cbn [xorb mkzero].
    + unfold mul. cbn [qval signb]. rewrite Hs.
      replace (m * 0) with 0 by ring.
      unfold mkfin. rewrite bool_decide_eq_true_2 by reflexivity.
      assert (Hs0 : bool_decide (0 < 0) = false) by reflexivity.
      rewrite Hs0. reflexivity.
    + unfold mul. cbn [qval signb]. rewrite Hs.
      replace (m * 0) with 0 by ring.
      unfold mkfin. rewrite bool_decide_eq_true_2 by reflexivity.
      reflexivity.
  - unfold div. rewrite Hz. cbn [qval].
    destruct (decide (q = 0)) as [->|Hq].
    + replace (0 / m) with 0 by (field; assumption).
      unfold mkfin at 1. rewrite bool_decide_eq_true_2 by reflexivity.
      assert (Hs0 : signb (Fin 0) = false) by reflexivity.
      rewrite Hs0, xorb_false_l.
      unfold mul. destruct (signb (Fin m)); cbn [mkzero qval signb xorb].
      * replace (m * 0) with 0 by ring.
        unfold mkfin. rewrite bool_decide_eq_true_2 by reflexivity.
        reflexivity.
      * replace (m * 0) with 0 by ring.
        assert (Hs1 : bool_decide (0 < 0) = false) by reflexivity.
        rewrite Hs1. unfold mkfin.
        rewrite bool_decide_eq_true_2 by reflexivity. reflexivity.
    + assert (Hqm : q / m <> 0).
      { intros Hqm. apply Hq.
        replace q with (q / m * m) by (field; assumption).
        rewrite Hqm. ring. }
      rewrite (mkfin_nonzero _ _ Hqm). unfold mul. cbn [qval].
      replace (m * (q / m)) with q by (field; assumption).
      apply mkfin_nonzero, Hq.
Qed.

(** Any other radius (zero, infinite or NaN) leaves NaN semi-axes and NaN
    in [radiusSq]. *)
Lemma mul_div_degenerate M a :
  (forall m, M = Fin m -> m = 0) ->
  mul M (div a M) = NaN /\ mul (mul M M) (div a M) = NaN.
Proof.
  intros HM. destruct M as [|s| |m].
  - destruct a; split; reflexivity.
  - destruct a as [|s'| |q]; split; try reflexivity;
      unfold div, mul; cbn [signb is_zero];
      repeat match goal with
      | |- context [mkzero ?s] => destruct s eqn:?; cbn [mkzero is_zero]
      | |- context [if ?c then _ else _] => destruct c eqn:?
      end; try reflexivity; try discriminate.
  - destruct a as [|s'| |q]; split; try reflexivity;
      unfold div, mul; cbn [signb is_zero qval];
      repeat match goal with
      | |- context [bool_decide (?q = 0)] =>
          destruct (bool_decide (q = 0)) eqn:?
      end; reflexivity.
  - rewrite (HM m eq_refl).
    destruct a as [|s'| |q]; split; try reflexivity;
      unfold div, mul; cbn [signb is_zero qval];
      repeat match goal with
      | |- context [bool_decide (q = 0)] =>
          destruct (bool_decide (q = 0)) eqn:?
      end; reflexivity.
Qed.

Lemma radius_cases M :
  (forall a, mul M (div a M) = a) \/
  (forall a, mul M (div a M) = NaN /\ mul (mul M M) (div a M) = NaN).
Proof.
  destruct M as [|s| |m].
  - right. intros a. apply mul_div_degenerate. discriminate.
  - right. intros a. apply mul_div_degenerate. discriminate.
  - right. intros a. apply mul_div_degenerate. discriminate.
  - destruct (decide (m = 0)) as [->|Hm].
    + right. intros a. apply mul_div_degenerate.
      intros m Hm. injection Hm as <-. reflexivity.
    + left. intros a. apply mul_div_cancel, Hm.
Qed.

(** [setShape] on the doubled semi-axes computes the [radiusV] and the
    [radiusSq] the semi-axes came with. *)
Lemma reshape_fixpoint (w h : t) :
  let two := Fin (Qc_of_Z 2) in
  let M := max (div w two) (div h two) in
  let rx := mul M (div (div w two) M) in
  let ry := mul M (div (div h two) M) in
  let M' := max (div (mul rx two) two) (div (mul ry two) two) in
  mul M' (div (div (mul rx two) two) M') = rx /\
  mul M' (div (div (mul ry two) two) M') = ry /\
  mul (mul M' M') (div (div (mul rx two) two) M') =
    mul (mul M M) (div (div w two) M) /\
  mul (mul M' M') (div (div (mul ry two) two) M') =
    mul (mul M M) (div (div h two) M).
Proof.
  intros two M rx ry M'. subst M' two. rewrite !double_half.
  subst rx ry. set (a := div w (Fin (Qc_of_Z 2))) in *.
  set (b := div h (Fin (Qc_of_Z 2))) in *.
  destruct (radius_cases M) as [Hreg|Hdeg].
  - rewrite !Hreg. repeat split; reflexivity.
  - destruct (Hdeg a) as [Ha1 Ha2]. destruct (Hdeg b) as [Hb1 Hb2].
    rewrite Ha1, Hb1, Ha2, Hb2. repeat split; reflexivity.
Qed.

End ExactFacts.

(* ================================================================== *)
(** ** The scenarios, evaluated *)
(* ================================================================== *)

Lemma Fin_eq (p q : Qc) : (p == q)%Q -> Exact.Fin p = Exact.Fin q.
Proof. intros Hpq. f_equal. apply Qc_is_canon, Hpq. Qed.

(** Decides an equation between concrete exact numbers, vectors or boxes
    by evaluation. *)
Ltac exact_eq :=
  vm_compute;
  repeat match goal with
  | |- Some _ = Some _ => apply f_equal
  | |- mkBounds _ _ = mkBounds _ _ => apply f_equal2
  | |- mkVector2d _ _ = mkVector2d _ _ => apply f_equal2
  | |- Exact.Fin _ = Exact.Fin _ => apply Fin_eq; reflexivity
  | |- _ => reflexivity
  end.

(** [new Ellipse(0, 0, 4, 2)] in exact arithmetic. *)
Lemma scenario_exact_fields :
  let e := fst scenario_exact in
  radius e = Exact.of_Z 2 /\
  ratio e = mkVector2d (Exact.of_Z 1) (Exact.of_Q (1 # 2)) /\
  radiusV e = mkVector2d (Exact.of_Z 2) (Exact.of_Z 1) /\
  radiusSq e = mkVector2d (Exact.of_Z 4) (Exact.of_Z 2) /\
  bounds_of scenario_exact =
    Some (mkBounds (mkVector2d (Exact.of_Z (-2)) (Exact.of_Z (-1)))
                   (mkVector2d (Exact.of_Z 2) (Exact.of_Z 1))).
Proof.
  repeat split; exact_eq.
Qed.

(** [new Ellipse(0, 0, 4, 2)] on doubles. *)
Lemma scenario_float_fields :
  let e := fst scenario_float in
  radius e = 2%float /\
  ratio e = mkVector2d 1%float 0.5%float /\
  radiusV e = mkVector2d 2%float 1%float /\
  radiusSq e = mkVector2d 4%float 2%float /\
  bounds_of scenario_float =
    Some (mkBounds (mkVector2d (-2)%float (-1)%float)
                   (mkVector2d 2%float 1%float)).
Proof.
  repeat split; vm_compute; reflexivity.
Qed.

Set Warnings "-inexact-float".

(** C2, as the code has it: the point (0, 1.0001) lies inside
    [new Ellipse(0, 0, 4, 2)] for [contains], in exact arithmetic and on
    doubles, since [dy * dy / radiusSq.y] is [1.00020001 / 2]. *)
Lemma contains_0_10001_is_true :
  contains (fst scenario_exact)
    (XY (Exact.of_Z 0) (Exact.of_Q (10001 # 10000))) = true /\
  contains (fst scenario_float) (XY 0%float 1.0001%float) = true.
Proof.
  split.
  - vm_compute. reflexivity.
  - vm_compute. reflexivity.
Qed.

(** C2, amended: for [new Ellipse(0, 0, 4, 2)], [radius] is 2, [ratio] is
    (1, 0.5), [radiusV] is (2, 1), [radiusSq] is (4, 2); [contains(1, 0)]
    is true and so is [contains(0, 1.0001)], the first point of the minor
    axis that is reported outside lying beyond the square root of 2
    ([contains(0, 1.5)] is false); the top-left corner of the bounds is
    (-2, -1) and their size (4, 2).  In exact arithmetic and on doubles. *)
Theorem scenario_0_0_4_2 :
  (let e := fst scenario_exact in
   radius e = Exact.of_Z 2 /\
   ratio e = mkVector2d (Exact.of_Z 1) (Exact.of_Q (1 # 2)) /\
   radiusV e = mkVector2d (Exact.of_Z 2) (Exact.of_Z 1) /\
   radiusSq e = mkVector2d (Exact.of_Z 4) (Exact.of_Z 2) /\
   contains e (XY (Exact.of_Z 1) (Exact.of_Z 0)) = true /\
   contains e (XY (Exact.of_Z 0) (Exact.of_Q (10001 # 10000))) = true /\
   contains e (XY (Exact.of_Z 0) (Exact.of_Q (3 # 2))) = false /\
   exists b, bounds_of scenario_exact = Some b /\
     Bounds_topLeft b = mkVector2d (Exact.of_Z (-2)) (Exact.of_Z (-1)) /\
     Bounds_size b = mkVector2d (Exact.of_Z 4) (Exact.of_Z 2)) /\
  (let e := fst scenario_float in
   radius e = 2%float /\
   ratio e = mkVector2d 1%float 0.5%float /\
   radiusV e = mkVector2d 2%float 1%float /\
   radiusSq e = mkVector2d 4%float 2%float /\
   contains e (XY 1%float 0%float) = true /\
   contains e (XY 0%float 1.0001%float) = true /\
   contains e (XY 0%float 1.5%float) = false /\
   exists b, bounds_of scenario_float = Some b /\
     Bounds_topLeft b = mkVector2d (-2)%float (-1)%float /\
     Bounds_size b = mkVector2d 4%float 2%float).
Proof.
  split.
  - destruct scenario_exact_fields as (Hr & Hrt & Hrv & Hsq & Hb).
    repeat (split; [first [assumption | vm_compute; reflexivity]|]).
    eexists. split; [exact Hb|]. split; exact_eq.
  - destruct scenario_float_fields as (Hr & Hrt & Hrv & Hsq & Hb).
    repeat (split; [first [assumption | vm_compute; reflexivity]|]).
    eexists. split; [exact Hb|]. split; vm_compute; reflexivity.
Qed.

(** The bounds [setShape] leaves, in exact arithmetic, for a finite center
    and positive finite sizes: the corners are [(x - w/2, y - h/2)] and
    [(x + w/2, x + h/2)], the lower edge being computed from [x]. *)
Lemma setShape_bounds_exact
    (pooled : Bounds Exact.t) (e : Ellipse Exact.t)
    (σ : gmap loc (Bounds Exact.t)) (l : loc) (b : Bounds Exact.t)
    (x y w h : Qc) :
  alive (e, σ) l b -> (0 < w)%Qc -> (0 < h)%Qc ->
  let wd' := setShape pooled (e, σ) (Exact.Fin x) (Exact.Fin y)
               (Exact.Fin w) (Exact.Fin h) in
  exists b', alive wd' l b' /\ Bfinite b' = true /\
    Exact.qval (vx (bmin b')) = (x - w / Qc_of_Z 2)%Qc /\
    Exact.qval (vy (bmin b')) = (y - h / Qc_of_Z 2)%Qc /\
    Exact.qval (vx (bmax b')) = (x + w / Qc_of_Z 2)%Qc /\
    Exact.qval (vy (bmax b')) = (x + h / Qc_of_Z 2)%Qc.
Proof.
  intros Ha Hw Hh wd'. subst wd'.
  rewrite (setShape_alive pooled e σ l b _ _ _ _ Ha).
  destruct (ExactFacts.shape_exact w h
              (ExactFacts.Qcmax_half_pos w h (or_introl Hw)))
    as (_ & _ & _ & Hvx & Hvy & _).
  cbn [vx vy]. rewrite Hvx, Hvy.
  eexists. split.
  { split; cbn [fst snd]; [reflexivity | apply lookup_insert_eq]. }
  unfold shape_box, Bfinite, Vfinite. cbn [bmin bmax vx vy].
  cbv [js_add js_neg exact_number].
  assert (Hf : forall q, Exact.finite (Exact.Fin q) = true)
    by reflexivity.
  pose proof (ExactFacts.neg_finite _ (Hf (w / Qc_of_Z 2)%Qc)) as [Hnw Hqw].
  pose proof (ExactFacts.neg_finite _ (Hf (h / Qc_of_Z 2)%Qc)) as [Hnh Hqh].
  pose proof (ExactFacts.add_finite _ _ (Hf x) (Hf w)) as [Hxw Hqxw].
  pose proof (ExactFacts.add_finite _ _ (Hf x) (Hf h)) as [Hxh Hqxh].
  pose proof (ExactFacts.add_finite _ _ (Hf x) Hnw) as [H1 Hq1].
  pose proof (ExactFacts.add_finite _ _ (Hf y) Hnh) as [H2 Hq2].
  pose proof (ExactFacts.add_finite _ _ Hxw Hnw) as [H3 Hq3].
  pose proof (ExactFacts.add_finite _ _ Hxh Hnh) as [H4 Hq4].
  rewrite H1, H2, H3, H4, Hq1, Hq2, Hq3, Hq4, Hqxw, Hqxh, Hqw, Hqh.
  cbn [Exact.qval andb].
  rewrite Z2Qc_inj_2.
  repeat split; try reflexivity; field; discriminate.
Qed.

(** C1, on the code: [new Ellipse(0, 10, 4, 2)] leaves the bounds
    [(-2, 9) .. (2, 1)], of size (4, -8): [setShape] calls
    [setMinMax(x, y, x + w, x + h)], so the lower edge is computed from
    [x].  The specification gives [(-2, 9) .. (2, 11)], of size (4, 2). *)
Theorem setShape_bounds_off_diagonal :
  (exists b, bounds_of offdiag_exact = Some b /\
     radiusV (fst offdiag_exact) = mkVector2d (Exact.of_Z 2) (Exact.of_Z 1) /\
     bmin b = mkVector2d (Exact.of_Z (-2)) (Exact.of_Z 9) /\
     bmax b = mkVector2d (Exact.of_Z 2) (Exact.of_Z 1) /\
     Bounds_size b = mkVector2d (Exact.of_Z 4) (Exact.of_Z (-8))) /\
  (exists b, bounds_of offdiag_float = Some b /\
     radiusV (fst offdiag_float) = mkVector2d 2%float 1%float /\
     bmin b = mkVector2d (-2)%float 9%float /\
     bmax b = mkVector2d 2%float 1%float /\
     Bounds_size b = mkVector2d 4%float (-8)%float).
Proof.
  split.
  - exists (mkBounds (mkVector2d (Exact.of_Z (-2)) (Exact.of_Z 9))
                     (mkVector2d (Exact.of_Z 2) (Exact.of_Z 1))).
    repeat split; exact_eq.
  - exists (mkBounds (mkVector2d (-2)%float 9%float)
                     (mkVector2d 2%float 1%float)).
    repeat split; vm_compute; reflexivity.
Qed.

(* ================================================================== *)
(** ** [setShape]: the radius, the semi-axes and the ratio *)
(* ================================================================== *)



(** C5, as the code has it: [setShape(0, 0, -2, -4)] leaves the ratio
    (1, 2), whose [y] is above 1; in exact arithmetic and on doubles. *)
Lemma ratio_above_one_for_negative_sizes :
  (let e := fst (new_Ellipse pooled0 ∅ (Exact.of_Z 0) (Exact.of_Z 0)
                   (Exact.of_Z (-2)) (Exact.of_Z (-4))) in
   ratio e = mkVector2d (Exact.of_Z 1) (Exact.of_Z 2) /\
   (vy (ratio e) <=? js_one)%js = false) /\
  (let e := fst (new_Ellipse pooled0 ∅ 0%float 0%float (-2)%float
                   (-4)%float) in
   ratio e = mkVector2d 1%float 2%float /\
   (vy (ratio e) <=? js_one)%js = false).
Proof.
  repeat split; first [exact_eq | vm_compute; reflexivity].
Qed.

(** With both sizes zero the radius is zero and the ratio is (NaN, NaN),
    of which no component compares to 1. *)
Lemma ratio_is_NaN_for_zero_sizes :
  (let e := fst (new_Ellipse pooled0 ∅ (Exact.of_Z 0) (Exact.of_Z 0)
                   (Exact.of_Z 0) (Exact.of_Z 0)) in
   ratio e = mkVector2d Exact.NaN Exact.NaN /\
   (vx (ratio e) <=? js_one)%js = false) /\
  (let e := fst (new_Ellipse pooled0 ∅ 0%float 0%float 0%float 0%float) in
   ratio e = mkVector2d PrimFloat.nan PrimFloat.nan /\
   (vx (ratio e) <=? js_one)%js = false).
Proof.
  repeat split; first [exact_eq | vm_compute; reflexivity].
Qed.

(** C5, amended: for all finite [w], [h] of which at least one is
    positive, after [setShape(x, y, w, h)] both [ratio.x <= 1] and
    [ratio.y <= 1] hold and at least one of the two components is exactly
    1, in exact arithmetic. *)
Theorem ratio_at_most_one
    (pooled : Bounds Exact.t) (e : Ellipse Exact.t)
    (σ : gmap loc (Bounds Exact.t)) (x y : Exact.t) (w h : Qc) :
  (0 < w)%Qc \/ (0 < h)%Qc ->
  let e' := fst (setShape pooled (e, σ) x y (Exact.Fin w) (Exact.Fin h)) in
  (vx (ratio e') <=? js_one)%js = true /\
  (vy (ratio e') <=? js_one)%js = true /\
  (vx (ratio e') = js_one \/ vy (ratio e') = js_one).
Proof.
  intros Hpos e'.
  destruct (setShape_fields pooled e σ x y (Exact.Fin w) (Exact.Fin h))
    as (_ & _ & Hrt & _).
  fold e' in Hrt.
  pose proof (ExactFacts.Qcmax_half_pos w h Hpos) as Hm.
  destruct (ExactFacts.shape_exact w h Hm) as (_ & Hx & Hy & _).
  rewrite Hrt. cbn [vx vy]. rewrite Hx, Hy.
  set (m := Exact.Qcmax (w / Qc_of_Z 2) (h / Qc_of_Z 2)) in *.
  assert (Hm0 : m <> 0%Qc) by apply not_eq_sym, Qclt_not_eq, Hm.
  cbv [js_le js_one exact_number Exact.of_Z Exact.le Exact.qval].
  rewrite Z2Qc_inj_1.
  split; [|split].
  - apply bool_decide_eq_true. apply ExactFacts.Qcdiv_le_1; [assumption|].
    apply ExactFacts.Qcmax_l.
  - apply bool_decide_eq_true. apply ExactFacts.Qcdiv_le_1; [assumption|].
    apply ExactFacts.Qcmax_r.
  - destruct (ExactFacts.Qcmax_cases (w / Qc_of_Z 2) (h / Qc_of_Z 2))
      as [Heq|Heq]; fold m in Heq; [left|right]; rewrite <- Heq at 1;
      f_equal; field; assumption.
Qed.

Lemma ratio_at_most_one_witness :
  ((0 < Qc_of_Z (-3))%Qc \/ (0 < Qc_of_Z 5)%Qc) /\
  let e' := fst (setShape pooled0 (fst scenario_exact, snd scenario_exact)
                   (Exact.of_Z 1) (Exact.of_Z 3)
                   (Exact.Fin (Qc_of_Z (-3))) (Exact.Fin (Qc_of_Z 5))) in
  (vx (ratio e') <=? js_one)%js = true /\
  (vy (ratio e') <=? js_one)%js = true /\
  (vx (ratio e') = js_one \/ vy (ratio e') = js_one).
Proof.
  split; [right; reflexivity|].
  apply (ratio_at_most_one pooled0 (fst scenario_exact)
           (snd scenario_exact) (Exact.of_Z 1) (Exact.of_Z 3)
           (Qc_of_Z (-3)) (Qc_of_Z 5)).
  right. reflexivity.
Defined.

(* ================================================================== *)
(** ** [contains], [scale] and [translate], for any arithmetic *)
(* ================================================================== *)

(** C3: [contains(x, y)], and [contains(v)] for a vector-like [v] with
    these coordinates, is the test
    [dx * dx / radiusSq.x + dy * dy / radiusSq.y <= 1.0] with
    [dx = x - pos.x] and [dy = y - pos.y], where [radiusSq], as the last
    [setShape] left it, is the component-wise product of [radius * radius]
    and [ratio]. *)
Theorem contains_formula {N : Type} `{JSNumber N}
    (e : Ellipse N) (w h x y : N) :
  shaped e w h ->
  let dx := (x - vx (pos e))%js in
  let dy := (y - vy (pos e))%js in
  contains e (XY x y) =
    (dx * dx / vx (radiusSq e) + dy * dy / vy (radiusSq e) <=? js_one)%js /\
  contains e (Vec (mkVector2d x y)) = contains e (XY x y) /\
  contains e (XY x y) =
    (dx * dx / (radius e * radius e * vx (ratio e)) +
     dy * dy / (radius e * radius e * vy (ratio e)) <=? js_one)%js.
Proof.
  intros (_ & _ & _ & Hsq) dx dy.
  split; [reflexivity|]. split; [reflexivity|].
  unfold contains. cbn [args_x args_y]. fold dx dy.
  rewrite Hsq. reflexivity.
Qed.

Lemma contains_formula_witness :
  let e := fst scenario_float in
  shaped e 4%float 2%float /\
  let dx := (1.5 - vx (pos e))%float in
  let dy := (0.25 - vy (pos e))%float in
  contains e (XY 1.5%float 0.25%float) =
    (dx * dx / vx (radiusSq e) + dy * dy / vy (radiusSq e) <=? js_one)%js /\
  contains e (Vec (mkVector2d 1.5%float 0.25%float)) =
    contains e (XY 1.5%float 0.25%float) /\
  contains e (XY 1.5%float 0.25%float) =
    (dx * dx / (radius e * radius e * vx (ratio e)) +
     dy * dy / (radius e * radius e * vy (ratio e)) <=? js_one)%js.
Proof.
  assert (Hs : shaped (fst scenario_float) 4%float 2%float)
    by (repeat split; vm_compute; reflexivity).
  split; [exact Hs|].
  exact (contains_formula (fst scenario_float) 4%float 2%float
           1.5%float 0.25%float Hs).
Defined.

(** [contains] in the rationals: at finite points, for a finite center
    and positive finite entries [a], [b] of [radiusSq], it is the
    inequality [dx * dx / a + dy * dy / b <= 1]. *)
Lemma contains_exact (e : Ellipse Exact.t) (px py a b x y : Qc) :
  pos e = mkVector2d (Exact.Fin px) (Exact.Fin py) ->
  radiusSq e = mkVector2d (Exact.Fin a) (Exact.Fin b) ->
  (0 < a)%Qc -> (0 < b)%Qc ->
  contains e (XY (Exact.Fin x) (Exact.Fin y)) = true <->
  ((x - px) * (x - px) / a + (y - py) * (y - py) / b <= 1)%Qc.
Proof.
  intros Hp Hsq Ha Hb. unfold contains. rewrite Hp, Hsq.
  cbn [args_x args_y vx vy].
  cbv [js_sub js_mul js_div js_add js_le js_one exact_number Exact.of_Z].
  assert (Hf : forall q, Exact.finite (Exact.Fin q) = true) by reflexivity.
  assert (Ha0 : Exact.qval (Exact.Fin a) <> 0%Qc)
    by apply not_eq_sym, Qclt_not_eq, Ha.
  assert (Hb0 : Exact.qval (Exact.Fin b) <> 0%Qc)
    by apply not_eq_sym, Qclt_not_eq, Hb.
  destruct (ExactFacts.sub_finite _ _ (Hf x) (Hf px)) as [Hdx Hqdx].
  destruct (ExactFacts.sub_finite _ _ (Hf y) (Hf py)) as [Hdy Hqdy].
  destruct (ExactFacts.mul_finite _ _ Hdx Hdx) as [Hxx Hqxx].
  destruct (ExactFacts.mul_finite _ _ Hdy Hdy) as [Hyy Hqyy].
  destruct (ExactFacts.div_finite _ _ Hxx (Hf a) Ha0) as [Hxa Hqxa].
  destruct (ExactFacts.div_finite _ _ Hyy (Hf b) Hb0) as [Hyb Hqyb].
  destruct (ExactFacts.add_finite _ _ Hxa Hyb) as [Hs Hqs].
  rewrite (ExactFacts.le_finite _ _ Hs (Hf _)).
  rewrite Hqs, Hqxa, Hqyb, Hqxx, Hqyy, Hqdx, Hqdy.
  cbn [Exact.qval]. rewrite Z2Qc_inj_1.
  apply bool_decide_eq_true.
Qed.

(** [radiusSq] is not the pair of the squared halves: for
    [new Ellipse(0, 0, 4, 2)] its [y] is 2 and the squared half height
    is 1. *)
Lemma radiusSq_is_not_the_squared_halves :
  let hH := (Exact.of_Z 2 / js_two)%js in
  vy (radiusSq (fst scenario_exact)) = Exact.of_Z 2 /\
  (hH * hH)%js = Exact.of_Z 1.
Proof.
  split; exact_eq.
Qed.

(** C6: [scale(sx, sy)], with [sy] being [sx] when omitted, is
    [setShape(pos.x, pos.y, radiusV.x * 2 * sx, radiusV.y * 2 * sy)] on the
    fields before the call, and [scaleV(v)] is [scale(v.x, v.y)]; on
    [new Ellipse(0, 0, 4, 2)], [scale(2)] leaves the full width and height
    (8, 4) and the bounds with their top-left corner at (-4, -2). *)
Theorem scale_is_setShape :
  (forall (N : Type) (HN : JSNumber N) (pooled : Bounds N) (wd : World N)
          (sx : N) (sy : option N) (v : Vector2d N),
     scale pooled wd sx sy = scale_spec pooled wd sx sy /\
     scale pooled wd sx None = scale pooled wd sx (Some sx) /\
     scaleV pooled wd v = scale pooled wd (vx v) (Some (vy v))) /\
  (let wd := scale pooled0 scenario_exact (Exact.of_Z 2) None in
   (vx (radiusV (fst wd)) * js_two)%js = Exact.of_Z 8 /\
   (vy (radiusV (fst wd)) * js_two)%js = Exact.of_Z 4 /\
   exists b, bounds_of wd = Some b /\
     Bounds_topLeft b = mkVector2d (Exact.of_Z (-4)) (Exact.of_Z (-2))) /\
  (let wd := scale pooled0 scenario_float 2%float None in
   (vx (radiusV (fst wd)) * js_two)%js = 8%float /\
   (vy (radiusV (fst wd)) * js_two)%js = 4%float /\
   exists b, bounds_of wd = Some b /\
     Bounds_topLeft b = mkVector2d (-4)%float (-2)%float).
Proof.
  split; [|split].
  - intros N HN pooled [e σ] sx sy v. split; [|split].
    + unfold scale, scale_spec. destruct sy; reflexivity.
    + reflexivity.
    + reflexivity.
  - split; [exact_eq|]. split; [exact_eq|].
    exists (mkBounds (mkVector2d (Exact.of_Z (-4)) (Exact.of_Z (-2)))
                     (mkVector2d (Exact.of_Z 4) (Exact.of_Z 2))).
    split; exact_eq.
  - split; [vm_compute; reflexivity|]. split; [vm_compute; reflexivity|].
    exists (mkBounds (mkVector2d (-4)%float (-2)%float)
                     (mkVector2d 4%float 2%float)).
    split; vm_compute; reflexivity.
Qed.

(** C8: [translate], called with two numbers [dx], [dy] or with one
    vector-like value of these coordinates, adds [dx] and [dy] to [pos] and
    to both corners of the bounds, and leaves [radius], [ratio], [radiusV]
    and [radiusSq] (and every other object of the store) as they were. *)
Theorem translate_shifts_pos_and_bounds {N : Type} `{JSNumber N}
    (pooled : Bounds N) (e : Ellipse N) (σ : gmap loc (Bounds N))
    (l : loc) (b : Bounds N) (dx dy : N) (a : Arguments N) :
  alive (e, σ) l b ->
  a = XY dx dy \/ a = Vec (mkVector2d dx dy) ->
  let e' := fst (translate pooled (e, σ) a) in
  let σ' := snd (translate pooled (e, σ) a) in
  pos e' = mkVector2d (vx (pos e) + dx)%js (vy (pos e) + dy)%js /\
  alive (e', σ') l
    (mkBounds
       (mkVector2d (vx (bmin b) + dx)%js (vy (bmin b) + dy)%js)
       (mkVector2d (vx (bmax b) + dx)%js (vy (bmax b) + dy)%js)) /\
  radius e' = radius e /\ ratio e' = ratio e /\
  radiusV e' = radiusV e /\ radiusSq e' = radiusSq e /\
  forall l', l' <> l -> σ' !! l' = σ !! l'.
Proof.
  intros Ha Hargs e' σ'. subst e' σ'.
  rewrite (translate_alive pooled e σ l b a Ha).
  assert (Hx : args_x a = dx) by (destruct Hargs; subst a; reflexivity).
  assert (Hy : args_y a = dy) by (destruct Hargs; subst a; reflexivity).
  rewrite Hx, Hy. cbn [fst snd]. destruct Ha as [Hb Hl].
  repeat split; try reflexivity.
  - exact Hb.
  - cbn [snd]. apply lookup_insert_eq.
  - intros l' Hne. apply lookup_insert_ne. congruence.
Qed.

Lemma translate_shifts_pos_and_bounds_witness :
  let e := fst scenario_float in
  let σ := snd scenario_float in
  let b := mkBounds (mkVector2d (-2)%float (-1)%float)
                    (mkVector2d 2%float 1%float) in
  let a := Vec (mkVector2d 3%float 5%float) in
  alive (e, σ) 1%positive b /\
  (a = XY 3%float 5%float \/ a = Vec (mkVector2d 3%float 5%float)) /\
  let e' := fst (translate pooled0 (e, σ) a) in
  let σ' := snd (translate pooled0 (e, σ) a) in
  pos e' = mkVector2d (vx (pos e) + 3)%float (vy (pos e) + 5)%float /\
  alive (e', σ') 1%positive
    (mkBounds
       (mkVector2d (vx (bmin b) + 3)%float (vy (bmin b) + 5)%float)
       (mkVector2d (vx (bmax b) + 3)%float (vy (bmax b) + 5)%float)) /\
  radius e' = radius e /\ ratio e' = ratio e /\
  radiusV e' = radiusV e /\ radiusSq e' = radiusSq e /\
  forall l', l' <> 1%positive -> σ' !! l' = σ !! l'.
Proof.
  assert (Ha : alive (fst scenario_float, snd scenario_float) 1%positive
                 (mkBounds (mkVector2d (-2)%float (-1)%float)
                           (mkVector2d 2%float 1%float)))
    by (split; vm_compute; reflexivity).
  split; [exact Ha|]. split; [right; reflexivity|].
  exact (translate_shifts_pos_and_bounds pooled0 (fst scenario_float)
           (snd scenario_float) 1%positive _ 3%float 5%float
           (Vec (mkVector2d 3%float 5%float)) Ha
           (or_intror eq_refl)).
Defined.

(* ================================================================== *)
(** ** [translate] there and back, in exact arithmetic *)
(* ================================================================== *)



(* ================================================================== *)
(** ** [rotate] *)
(* ================================================================== *)

(** C10, as the code has it: on doubles, [new Ellipse(0, 0, 4, 2)] has
    bounds of size (4, 2); a half turn about the pivot (0.05, 0.35) moves
    [pos] to (0.1, 0.7) and leaves bounds of size
    (3.9999999999999996, 2).  In exact arithmetic, a quarter turn about
    the pivot (Infinity, 0) leaves bounds of size (NaN, NaN). *)
Lemma rotate_changes_the_size :
  let r := rotate half_turn pooled0 scenario_float 3.141592653589793%float
             (Some (mkVector2d 0.05%float 0.35%float)) in
  let rx := rotate quarter_turn pooled0 scenario_exact (Exact.of_Z 1)
              (Some (mkVector2d (Exact.Inf false) (Exact.of_Z 0))) in
  option_map Bounds_size (bounds_of scenario_float) =
    Some (mkVector2d 4%float 2%float) /\
  pos (fst r) = mkVector2d 0.1%float 0.7%float /\
  option_map Bounds_size (bounds_of r) =
    Some (mkVector2d 3.9999999999999996%float 2%float) /\
  PrimFloat.eqb 3.9999999999999996%float 4%float = false /\
  option_map Bounds_size (bounds_of scenario_exact) =
    Some (mkVector2d (Exact.of_Z 4) (Exact.of_Z 2)) /\
  option_map Bounds_size (bounds_of rx) =
    Some (mkVector2d Exact.NaN Exact.NaN).
Proof.
  cbv zeta.
  split; [vm_compute; reflexivity|].
  split; [vm_compute; reflexivity|].
  split; [vm_compute; reflexivity|].
  split; [vm_compute; reflexivity|].
  split; [|vm_compute; reflexivity].
  vm_compute. f_equal. f_equal; apply Fin_eq; reflexivity.
Qed.

(** C10, amended: for every constructed ellipse, every angle and every
    optional pivot, in any arithmetic (that of doubles included) and for
    any rotation of vectors, [rotate(angle, pivot)] leaves [radius],
    [ratio], [radiusV], [radiusSq] and [shapeType], and every other object
    of the store, as they were: only [pos], which becomes the rotated
    point, and the bounds change, and the top-left corner of the bounds
    ends at the new [pos] plus [-radiusV].  In exact arithmetic that corner
    is the new [pos] minus [radiusV], and the size of the bounds is kept
    when the bounds, the rotated [pos] and [radiusV] are finite. *)
Theorem rotate_keeps_shape_and_size :
  (forall (N : Type) (HN : JSNumber N)
      (rot : Vector2d N -> N -> option (Vector2d N) -> Vector2d N)
      (pooled : Bounds N) (e : Ellipse N) (σ : gmap loc (Bounds N))
      (l : loc) (b : Bounds N) (angle : N) (v : option (Vector2d N)),
    alive (e, σ) l b ->
    let p := rot (pos e) angle v in
    let wd' := rotate rot pooled (e, σ) angle v in
    radius (fst wd') = radius e /\ ratio (fst wd') = ratio e /\
    radiusV (fst wd') = radiusV e /\ radiusSq (fst wd') = radiusSq e /\
    shapeType (fst wd') = shapeType e /\
    pos (fst wd') = p /\
    (forall l', l' <> l -> snd wd' !! l' = σ !! l') /\
    exists b', alive wd' l b' /\
      Bounds_topLeft b' =
        mkVector2d (vx p + - vx (radiusV e))%js
                   (vy p + - vy (radiusV e))%js) /\
  (forall (rot : Vector2d Exact.t -> Exact.t -> option (Vector2d Exact.t) ->
                 Vector2d Exact.t)
      (pooled : Bounds Exact.t) (e : Ellipse Exact.t)
      (σ : gmap loc (Bounds Exact.t)) (l : loc) (b : Bounds Exact.t)
      (angle : Exact.t) (v : option (Vector2d Exact.t)),
    alive (e, σ) l b ->
    let p := rot (pos e) angle v in
    let wd' := rotate rot pooled (e, σ) angle v in
    exists b', alive wd' l b' /\
      Bounds_topLeft b' =
        mkVector2d (vx p - vx (radiusV e))%js (vy p - vy (radiusV e))%js /\
      (Bfinite b = true -> Vfinite p = true -> Vfinite (radiusV e) = true ->
       Vsame (Bounds_size b') (Bounds_size b))).
Proof.
  split.
  - intros N HN rot pooled e σ l b angle v Ha.
    exact (rotate_frame rot pooled e σ l b angle v Ha).
  - intros rot pooled e σ l b angle v Ha p wd'. subst wd'.
    rewrite (rotate_alive rot pooled e σ l b angle v Ha). fold p.
    eexists. split.
    { split; cbn [fst snd]; [apply Ha | apply lookup_insert_eq]. }
    split; [reflexivity|].
    intros Hb Hp Hr.
    destruct b as [[x0 y0] [x1 y1]], p as [px py].
    destruct (radiusV e) as [rx ry].
    unfold Bfinite, Vfinite in Hb, Hp, Hr.
    cbn [bmin bmax vx vy] in Hb, Hp, Hr.
    apply andb_prop in Hb as [Hb0 Hb1].
    apply andb_prop in Hb0 as [Hx0 Hy0]. apply andb_prop in Hb1 as [Hx1 Hy1].
    apply andb_prop in Hp as [Hpx Hpy]. apply andb_prop in Hr as [Hrx Hry].
    unfold Vsame. unfold_fields.
    split; apply ExactFacts.moved_size; assumption.
Qed.

Lemma rotate_keeps_shape_and_size_witness :
  (let e := fst scenario_float in
   let σ := snd scenario_float in
   let b := mkBounds (mkVector2d (-2)%float (-1)%float)
                     (mkVector2d 2%float 1%float) in
   let angle := 3.141592653589793%float in
   let v := Some (mkVector2d 0.05%float 0.35%float) in
   let p := half_turn (pos e) angle v in
   alive (e, σ) 1%positive b /\
   let wd' := rotate half_turn pooled0 (e, σ) angle v in
   radius (fst wd') = radius e /\ ratio (fst wd') = ratio e /\
   radiusV (fst wd') = radiusV e /\ radiusSq (fst wd') = radiusSq e /\
   shapeType (fst wd') = shapeType e /\
   pos (fst wd') = p /\
   (forall l', l' <> 1%positive -> snd wd' !! l' = σ !! l') /\
   exists b', alive wd' 1%positive b' /\
     Bounds_topLeft b' =
       mkVector2d (vx p + - vx (radiusV e))%js
                  (vy p + - vy (radiusV e))%js) /\
  (let e := fst scenario_exact in
   let σ := snd scenario_exact in
   let b := mkBounds (mkVector2d (Exact.of_Z (-2)) (Exact.of_Z (-1)))
                     (mkVector2d (Exact.of_Z 2) (Exact.of_Z 1)) in
   let angle := Exact.of_Q (11 # 7) in
   let v := Some (mkVector2d (Exact.of_Z 3) (Exact.of_Z 1)) in
   let p := quarter_turn (pos e) angle v in
   alive (e, σ) 1%positive b /\
   Bfinite b = true /\ Vfinite p = true /\ Vfinite (radiusV e) = true /\
   let wd' := rotate quarter_turn pooled0 (e, σ) angle v in
   exists b', alive wd' 1%positive b' /\
     Bounds_topLeft b' =
       mkVector2d (vx p - vx (radiusV e))%js (vy p - vy (radiusV e))%js /\
     (Bfinite b = true -> Vfinite p = true -> Vfinite (radiusV e) = true ->
      Vsame (Bounds_size b') (Bounds_size b))).
Proof.
  assert (Hf : alive (fst scenario_float, snd scenario_float) 1%positive
            (mkBounds (mkVector2d (-2)%float (-1)%float)
                      (mkVector2d 2%float 1%float))).
  { split; [reflexivity|]. vm_compute. reflexivity. }
  assert (Ha : alive (fst scenario_exact, snd scenario_exact) 1%positive
            (mkBounds (mkVector2d (Exact.of_Z (-2)) (Exact.of_Z (-1)))
                      (mkVector2d (Exact.of_Z 2) (Exact.of_Z 1)))).
  { split; [reflexivity|]. exact_eq. }
  split.
  - split; [exact Hf|].
    exact (proj1 rotate_keeps_shape_and_size float float_number half_turn
             pooled0 (fst scenario_float) (snd scenario_float) 1%positive _
             3.141592653589793%float
             (Some (mkVector2d 0.05%float 0.35%float)) Hf).
  - split; [exact Ha|]. split; [reflexivity|]. split; [reflexivity|].
    split; [reflexivity|].
    exact (proj2 rotate_keeps_shape_and_size quarter_turn pooled0
             (fst scenario_exact) (snd scenario_exact) 1%positive _
             (Exact.of_Q (11 # 7))
             (Some (mkVector2d (Exact.of_Z 3) (Exact.of_Z 1))) Ha).
Defined.

(* ================================================================== *)
(** ** [clone] *)
(* ================================================================== *)

(** C7, as the code has it: on doubles,
    [new Ellipse(0, 0, -1.7976931348623157e308, -3)] has
    [radiusV.x = -8.9884656743115795e307], the double of which overflows:
    [clone()] hands the width [-Infinity] to the constructor.  The clone
    has [radiusV.x = -Infinity] and [radiusSq.x = Infinity], and
    [contains(1.3e154, 0)] is [true] on the clone and [false] on the
    original. *)
Lemma clone_differs_on_overflow :
  let wd := new_Ellipse pooled0 ∅ 0%float 0%float
              (-1.7976931348623157e308)%float (-3)%float in
  let e := fst wd in
  let c := fst (clone pooled0 wd) in
  radiusV e = mkVector2d (-8.9884656743115795e307)%float (-1.5)%float /\
  radiusSq e = mkVector2d 1.3482698511467369e308%float 2.25%float /\
  (vx (radiusV e) * js_two)%js = neg_infinity /\
  radiusV c = mkVector2d neg_infinity (-1.5)%float /\
  radiusSq c = mkVector2d infinity 2.25%float /\
  contains e (XY 1.3e154%float 0%float) = false /\
  contains c (XY 1.3e154%float 0%float) = true.
Proof.
  cbv zeta. repeat split; vm_compute; reflexivity.
Qed.

(** In exact arithmetic the clone has the [pos], the [radiusV] and the
    [radiusSq] of the original. *)
Lemma clone_exact_fields
    (pooled : Bounds Exact.t) (e : Ellipse Exact.t)
    (σ : gmap loc (Bounds Exact.t)) (w h : Exact.t) :
  shaped e w h ->
  let c := fst (clone pooled (e, σ)) in
  pos c = pos e /\ radiusV c = radiusV e /\ radiusSq c = radiusSq e.
Proof.
  intros (Hr & Hrt & Hrv & Hsq) c.
  pose proof (ExactFacts.reshape_fixpoint w h) as Hfix.
  cbv zeta in Hfix.
  rewrite Hrt in Hrv, Hsq. cbn [vx vy] in Hrv, Hsq. rewrite Hr in Hrv, Hsq.
  change (Exact.Fin (Qc_of_Z 2)) with (@js_two Exact.t _) in Hfix.
  change Exact.max with (@Math_max Exact.t _) in Hfix.
  change Exact.div with (@js_div Exact.t _) in Hfix.
  change Exact.mul with (@js_mul Exact.t _) in Hfix.
  assert (Hvx : vx (radiusV e) =
    (Math_max (w / js_two) (h / js_two) *
     (w / js_two / Math_max (w / js_two) (h / js_two)))%js)
    by (rewrite Hrv; reflexivity).
  assert (Hvy : vy (radiusV e) =
    (Math_max (w / js_two) (h / js_two) *
     (h / js_two / Math_max (w / js_two) (h / js_two)))%js)
    by (rewrite Hrv; reflexivity).
  rewrite <- Hvx, <- Hvy in Hfix.
  destruct Hfix as (Hfx & Hfy & Hsx & Hsy).
  assert (Hc : c = mkEllipse (pos e) (Some (fresh (dom σ)))
            (Math_max (vx (radiusV e) * js_two / js_two)
                      (vy (radiusV e) * js_two / js_two))%js
            (radiusV e) (radiusSq e)
            (ratio c) "Ellipse").
  { subst c. unfold clone. rewrite new_Ellipse_eq. cbn [fst ratio vx vy].
    rewrite Hfx, Hfy, Hsx, Hsy, <- Hsq.
    destruct e as [[px py] ob r [rx ry] sq rt st]. reflexivity. }
  rewrite Hc. repeat split; reflexivity.
Qed.

(** C7, amended: for every constructed ellipse, in any arithmetic (that of
    doubles included) and for any rotation of vectors, [clone()] returns a
    new [Ellipse] with the center of the original, whose bounds are an
    object that was not in the store before.  Whatever calls are then made
    on the original and on the clone, in any order, the original and its
    bounds end as if it had never been cloned, and the clone and its bounds
    end as if the calls on it had been made alone.  In exact arithmetic
    the clone has the full width and height
    [(2 * radiusV.x, 2 * radiusV.y)] of the original, and [contains] gives
    the same answer on both at every point. *)
Theorem clone_is_independent :
  (forall (N : Type) (HN : JSNumber N)
      (rot : Vector2d N -> N -> option (Vector2d N) -> Vector2d N)
      (pooled : Bounds N) (e : Ellipse N) (σ : gmap loc (Bounds N))
      (l : loc) (b : Bounds N),
    alive (e, σ) l b ->
    let c := fst (clone pooled (e, σ)) in
    let σ' := snd (clone pooled (e, σ)) in
    pos c = pos e /\
    shapeType c = "Ellipse"%string /\
    (exists l' b',
       alive (c, σ') l' b' /\ l' <> l /\ σ !! l' = None /\
       alive (e, σ') l b) /\
    (forall calls,
       let st := run_calls rot pooled calls (e, c, σ') in
       view (fst (fst st), snd st) =
         view (run_all rot pooled (calls_on OnOriginal calls) (e, σ)) /\
       view (snd (fst st), snd st) =
         view (run_all rot pooled (calls_on OnClone calls) (c, σ')))) /\
  (forall (pooled : Bounds Exact.t) (e : Ellipse Exact.t)
      (σ : gmap loc (Bounds Exact.t)) (w h : Exact.t),
    shaped e w h ->
    let c := fst (clone pooled (e, σ)) in
    (vx (radiusV c) * js_two)%js = (vx (radiusV e) * js_two)%js /\
    (vy (radiusV c) * js_two)%js = (vy (radiusV e) * js_two)%js /\
    (forall a, contains c a = contains e a)).
Proof.
  split.
  - intros N HN rot pooled e σ l b Ha.
    exact (clone_separate rot pooled e σ l b Ha).
  - intros pooled e σ w h Hs c.
    destruct (clone_exact_fields pooled e σ w h Hs) as (Hp & Hv & Hq).
    fold c in Hp, Hv, Hq.
    split; [rewrite Hv; reflexivity|].
    split; [rewrite Hv; reflexivity|].
    intros a. unfold contains. rewrite Hp, Hq. reflexivity.
Qed.

Lemma clone_is_independent_witness :
  (let e := fst scenario_float in
   let σ := snd scenario_float in
   let b := mkBounds (mkVector2d (-2)%float (-1)%float)
                     (mkVector2d 2%float 1%float) in
   alive (e, σ) 1%positive b /\
   let c := fst (clone pooled0 (e, σ)) in
   let σ' := snd (clone pooled0 (e, σ)) in
   pos c = pos e /\
   shapeType c = "Ellipse"%string /\
   (exists l' b',
      alive (c, σ') l' b' /\ l' <> 1%positive /\ σ !! l' = None /\
      alive (e, σ') 1%positive b) /\
   (forall calls,
      let st := run_calls half_turn pooled0 calls (e, c, σ') in
      view (fst (fst st), snd st) =
        view (run_all half_turn pooled0 (calls_on OnOriginal calls)
                (e, σ)) /\
      view (snd (fst st), snd st) =
        view (run_all half_turn pooled0 (calls_on OnClone calls)
                (c, σ')))) /\
  (let e := fst scenario_exact in
   let σ := snd scenario_exact in
   shaped e (Exact.of_Z 4) (Exact.of_Z 2) /\
   let c := fst (clone pooled0 (e, σ)) in
   (vx (radiusV c) * js_two)%js = (vx (radiusV e) * js_two)%js /\
   (vy (radiusV c) * js_two)%js = (vy (radiusV e) * js_two)%js /\
   (forall a, contains c a = contains e a)).
Proof.
  assert (Hf : alive (fst scenario_float, snd scenario_float) 1%positive
            (mkBounds (mkVector2d (-2)%float (-1)%float)
                      (mkVector2d 2%float 1%float))).
  { split; [reflexivity|]. vm_compute. reflexivity. }
  assert (Hs : shaped (fst scenario_exact) (Exact.of_Z 4) (Exact.of_Z 2))
    by (repeat split; exact_eq).
  split.
  - split; [exact Hf|].
    exact (proj1 clone_is_independent float float_number half_turn pooled0
             (fst scenario_float) (snd scenario_float) 1%positive _ Hf).
  - split; [exact Hs|].
    exact (proj2 clone_is_independent pooled0 (fst scenario_exact)
             (snd scenario_exact) (Exact.of_Z 4) (Exact.of_Z 2) Hs).
Defined.

(* ================================================================== *)
(** ** The bounds object over the life of an ellipse, for any arithmetic *)
(* ================================================================== *)

Section Lifecycle.

Context {N : Type} `{JSNumber N}.
Variable rot : Vector2d N -> N -> option (Vector2d N) -> Vector2d N.
Variable pooled : Bounds N.
Local Open Scope js_scope.

Implicit Types (σ : gmap loc (Bounds N)) (e : Ellipse N) (b : Bounds N)
  (l : loc).

(** A call changes neither [shapeType] nor, on a constructed ellipse, the
    set of objects in the store. *)
Lemma run_shapeType m e σ : shapeType (fst (run rot pooled m (e, σ))) = shapeType e.
Proof.
  destruct e as [p ob r rv sq rt st].
  destruct m as [x y w h|x y w h|angle v|x y|v| |a]; cbn [run];
    unfold onResetEvent, scaleV, scale, setShape, rotate, translate,
      transform, getBounds, pool_pull;
    destruct ob; reflexivity.
Qed.

Lemma alive_insert e σ l b b' : alive (e, σ) l b -> alive (e, <[l := b']> σ) l b'.
Proof.
  intros [He _]. split; cbn [fst snd] in *; [exact He | apply lookup_insert_eq].
Qed.

(** X1: [getBounds()] is lazy and memoized.  The first call on an ellipse
    without bounds pulls an instance that was not in the store and keeps it
    in [_bounds]; a call on an ellipse that has bounds returns them and
    changes nothing; in both cases the next call returns the same object
    and changes nothing. *)
Theorem getBounds_is_memoized (wd : World N) :
  let l := fst (getBounds pooled wd) in
  let wd' := snd (getBounds pooled wd) in
  _bounds (fst wd') = Some l /\
  getBounds pooled wd' = (l, wd') /\
  match _bounds (fst wd) with
  | None =>
      snd wd !! l = None /\
      wd' = (set__bounds (fst wd) (Some l), <[l := pooled]> (snd wd))
  | Some l0 => l = l0 /\ wd' = wd
  end.
Proof.
  destruct wd as [[p ob r rv sq rt st] σ]. unfold getBounds, pool_pull.
  destruct ob as [l0|]; cbn.
  - repeat split; reflexivity.
  - repeat split; try reflexivity.
    apply not_elem_of_dom, is_fresh.
Qed.

(** X2: the constructor sets [pos] to [(x, y)] and [shapeType] to
    "Ellipse" and pulls exactly one [Bounds] object, which was not in the
    store; the objects that were there are left as they were.  An ellipse
    constructed next gets another object and leaves the bounds of the
    first one alone. *)
Theorem new_Ellipse_pulls_one_bounds σ (x y w h x2 y2 w2 h2 : N) :
  let wd := new_Ellipse pooled σ x y w h in
  let wd2 := new_Ellipse pooled (snd wd) x2 y2 w2 h2 in
  pos (fst wd) = mkVector2d x y /\
  shapeType (fst wd) = "Ellipse"%string /\
  exists l l2 b b2,
    alive wd l b /\ σ !! l = None /\
    dom (snd wd) = {[l]} ∪ dom σ /\ delete l (snd wd) = σ /\
    alive wd2 l2 b2 /\ l2 <> l /\ alive (fst wd, snd wd2) l b.
Proof.
  intros wd wd2. subst wd2 wd.
  rewrite (new_Ellipse_eq pooled (snd _)).
  rewrite (new_Ellipse_eq pooled σ). cbn [fst snd pos shapeType].
  assert (Hfresh : σ !! fresh (dom σ) = None)
    by apply not_elem_of_dom, is_fresh.
  set (l := fresh (dom σ)) in *.
  set (σ1 := <[l := _]> σ).
  assert (Hfresh2 : σ1 !! fresh (dom σ1) = None)
    by apply not_elem_of_dom, is_fresh.
  assert (Hne : fresh (dom σ1) <> l).
  { intros Heq. rewrite Heq in Hfresh2. subst σ1.
    rewrite lookup_insert_eq in Hfresh2. discriminate. }
  split; [reflexivity|]. split; [reflexivity|].
  eexists l, (fresh (dom σ1)), _, _.
  split; [split; cbn [fst snd]; [reflexivity | apply lookup_insert_eq]|].
  split; [exact Hfresh|].
  split; [apply dom_insert_L|].
  split; [subst σ1; rewrite delete_insert_eq; apply delete_id, Hfresh|].
  split; [split; cbn [fst snd]; [reflexivity | apply lookup_insert_eq]|].
  split; [exact Hne|].
  split; cbn [fst snd]; [reflexivity|].
  rewrite lookup_insert_ne by exact Hne. apply lookup_insert_eq.
Qed.

(** One call keeps the bounds object, the set of objects in the store and
    every other object. *)
Lemma run_keeps_store m e σ l b :
  alive (e, σ) l b ->
  exists b', alive (run rot pooled m (e, σ)) l b' /\
    dom (snd (run rot pooled m (e, σ))) = dom σ /\
    delete l (snd (run rot pooled m (e, σ))) = delete l σ.
Proof.
  intros [He Hl]. cbn [fst snd] in He, Hl.
  destruct (run_local rot pooled m e l b He) as (e' & b' & He' & Hrun).
  rewrite (Hrun σ Hl). exists b'. cbn [snd]. split; [|split].
  - split; cbn [fst snd]; [exact He' | apply lookup_insert_eq].
  - apply dom_insert_lookup_L. rewrite Hl. eexists. reflexivity.
  - apply delete_insert_eq.
Qed.

(** X3: whatever calls are made on a constructed ellipse, it keeps the
    bounds object it has ([getBounds()] returns that object and changes
    nothing), no further instance is pulled from the pool (the store holds
    the same objects) and no other object of the store is changed. *)
Theorem calls_keep_the_bounds_object e σ l b (ms : list (Mutation N)) :
  alive (e, σ) l b ->
  let wd' := run_all rot pooled ms (e, σ) in
  getBounds pooled wd' = (l, wd') /\
  dom (snd wd') = dom σ /\
  delete l (snd wd') = delete l σ.
Proof.
  revert e σ b. induction ms as [|m ms IH]; intros e σ b Ha wd'.
  - subst wd'. cbn [run_all foldl]. destruct Ha as [He _].
    cbn [fst] in He. unfold getBounds. rewrite He. repeat split; reflexivity.
  - subst wd'. cbn [run_all foldl].
    destruct (run_keeps_store m e σ l b Ha) as (b' & Ha' & Hdom & Hdel).
    destruct (run rot pooled m (e, σ)) as [e1 σ1] eqn:Hrun.
    cbn [snd] in Hdom, Hdel.
    destruct (IH e1 σ1 b' Ha') as (Hg & Hd & Hx).
    fold (run_all rot pooled ms (e1, σ1)).
    split; [exact Hg|]. split; congruence.
Qed.

Lemma setShape_after_run m e σ l b x y w h :
  alive (e, σ) l b ->
  setShape pooled (run rot pooled m (e, σ)) x y w h =
    setShape pooled (e, σ) x y w h.
Proof.
  intros Ha. pose proof (run_shapeType m e σ) as Hst.
  destruct Ha as [He Hl]. cbn [fst snd] in He, Hl.
  destruct (run_local rot pooled m e l b He) as (e' & b' & He' & Hrun).
  rewrite (Hrun σ Hl) in Hst |- *. cbn [fst] in Hst.
  rewrite (setShape_alive pooled e' _ l b')
    by (split; cbn [fst snd]; [exact He' | apply lookup_insert_eq]).
  rewrite (setShape_alive pooled e σ l b) by (split; assumption).
  rewrite insert_insert_eq, Hst. reflexivity.
Qed.

(** X4: [onResetEvent(x, y, w, h)] (and so [setShape]) erases what came
    before: after any calls on a constructed ellipse it leaves the fields,
    the bounds and the store that it leaves when called at once. *)
Theorem onResetEvent_erases_history e σ l b (ms : list (Mutation N))
    (x y w h : N) :
  alive (e, σ) l b ->
  onResetEvent pooled (run_all rot pooled ms (e, σ)) x y w h =
    onResetEvent pooled (e, σ) x y w h /\
  setShape pooled (run_all rot pooled ms (e, σ)) x y w h =
    setShape pooled (e, σ) x y w h.
Proof.
  unfold onResetEvent. intros Ha. split.
  all: revert e σ b Ha; induction ms as [|m ms IH]; intros e σ b Ha;
    [reflexivity|].
  all: cbn [run_all foldl];
    destruct (run_keeps_store m e σ l b Ha) as (b' & Ha' & _);
    rewrite <- (setShape_after_run m e σ l b x y w h Ha);
    destruct (run rot pooled m (e, σ)) as [e1 σ1];
    exact (IH e1 σ1 b' Ha').
Qed.

End Lifecycle.

Lemma calls_keep_the_bounds_object_witness :
  let e := fst scenario_exact in
  let σ := snd scenario_exact in
  let b := mkBounds (mkVector2d (Exact.of_Z (-2)) (Exact.of_Z (-1)))
                    (mkVector2d (Exact.of_Z 2) (Exact.of_Z 1)) in
  let ms := CallTranslate (XY (Exact.of_Z 3) (Exact.of_Z 5)) ::
            CallScale (Exact.of_Z 2) None ::
            CallRotate (Exact.of_Z 1) None ::
            CallTransform ::
            CallSetShape (Exact.of_Z 0) (Exact.of_Z 0) (Exact.of_Z 0)
              (Exact.of_Z 0) :: nil in
  alive (e, σ) 1%positive b /\
  let wd' := run_all quarter_turn pooled0 ms (e, σ) in
  getBounds pooled0 wd' = (1%positive, wd') /\
  dom (snd wd') = dom σ /\
  delete 1%positive (snd wd') = delete 1%positive σ.
Proof.
  assert (Ha : alive (fst scenario_exact, snd scenario_exact) 1%positive
            (mkBounds (mkVector2d (Exact.of_Z (-2)) (Exact.of_Z (-1)))
                      (mkVector2d (Exact.of_Z 2) (Exact.of_Z 1)))).
  { split; [reflexivity|]. exact_eq. }
  split; [exact Ha|].
  exact (calls_keep_the_bounds_object quarter_turn pooled0
           (fst scenario_exact) (snd scenario_exact) 1%positive _ _ Ha).
Defined.

Lemma onResetEvent_erases_history_witness :
  let e := fst scenario_exact in
  let σ := snd scenario_exact in
  let b := mkBounds (mkVector2d (Exact.of_Z (-2)) (Exact.of_Z (-1)))
                    (mkVector2d (Exact.of_Z 2) (Exact.of_Z 1)) in
  let ms := CallTranslate (Vec (mkVector2d (Exact.of_Z 3) (Exact.of_Z 5))) ::
            CallScaleV (mkVector2d (Exact.of_Z 2) (Exact.of_Z 3)) ::
            CallRotate (Exact.of_Z 1) None :: nil in
  alive (e, σ) 1%positive b /\
  onResetEvent pooled0 (run_all quarter_turn pooled0 ms (e, σ))
      (Exact.of_Z 7) (Exact.of_Z 7) (Exact.of_Z 6) (Exact.of_Z 8) =
    onResetEvent pooled0 (e, σ)
      (Exact.of_Z 7) (Exact.of_Z 7) (Exact.of_Z 6) (Exact.of_Z 8) /\
  setShape pooled0 (run_all quarter_turn pooled0 ms (e, σ))
      (Exact.of_Z 7) (Exact.of_Z 7) (Exact.of_Z 6) (Exact.of_Z 8) =
    setShape pooled0 (e, σ)
      (Exact.of_Z 7) (Exact.of_Z 7) (Exact.of_Z 6) (Exact.of_Z 8).
Proof.
  assert (Ha : alive (fst scenario_exact, snd scenario_exact) 1%positive
            (mkBounds (mkVector2d (Exact.of_Z (-2)) (Exact.of_Z (-1)))
                      (mkVector2d (Exact.of_Z 2) (Exact.of_Z 1)))).
  { split; [reflexivity|]. exact_eq. }
  split; [exact Ha|].
  exact (onResetEvent_erases_history quarter_turn pooled0
           (fst scenario_exact) (snd scenario_exact) 1%positive _ _
           (Exact.of_Z 7) (Exact.of_Z 7) (Exact.of_Z 6) (Exact.of_Z 8) Ha).
Defined.
